(** * Spotify playlist downloader: a shallow embedding of [app.py]

    The development models the class [SpotifyDownloaderAPI]: the filename
    sanitizer, the playlist URL parser, the paginated track listing, the
    per-track download worker and the background download run with its
    shared progress record and its [is_downloading] flag.

    Python strings are sequences of Unicode code points; a code point is a
    number in [N].  Python dictionaries with string keys are finite maps.
    Calls that leave the program (catalog API, file system, video search,
    transcoding download) are operations of an interface over an abstract
    world; every such call that can act on the world is also recorded in
    a log of events, so that theorems can speak about which calls a run
    performs. *)

From Stdlib Require Import NArith ZArith Ascii String List Lia.
From stdpp Require Import base decidable option list gmap strings.

Local Open Scope N_scope.

(** ** Strings *)

(** A Python [str]: the list of its code points. *)
Abbreviation str := (list N).

(** The code points of an ASCII literal. *)
Definition py (s : string) : str :=
  List.map N_of_ascii (list_ascii_of_string s).

(** [string.ascii_letters] and [string.digits]. *)
Definition ascii_letters : str :=
  py "abcdefghijklmnopqrstuvwxyzABCDEFGHIJKLMNOPQRSTUVWXYZ".
Definition digits : str := py "0123456789".

(** ** [sanitize_filename] *)

(** [valid_chars = f"-_.() {string.ascii_letters}{string.digits}"] *)
Definition valid_chars : str :=
  Eval cbv in py "-_.() " ++ ascii_letters ++ digits.

(** [''.join(c for c in filename if c in valid_chars)] *)
Definition sanitize_filename (filename : str) : str :=
  filter (λ c, c ∈ valid_chars) filename.

(** The character classes the specification names. *)
Definition is_ascii_letter (c : N) : Prop :=
  (97 <= c <= 122) ∨ (65 <= c <= 90).
Definition is_ascii_digit (c : N) : Prop := 48 <= c <= 57.
Definition is_punct_allowed (c : N) : Prop := c ∈ py "-_.() ".
Definition allowed (c : N) : Prop :=
  is_ascii_letter c ∨ is_ascii_digit c ∨ is_punct_allowed c.

(** ** [extract_playlist_id] *)

(** The character class [[a-zA-Z0-9]] of a [str] pattern. *)
Definition is_alnum (c : N) : bool :=
  ((97 <=? c) && (c <=? 122)) || ((65 <=? c) && (c <=? 90))
  || ((48 <=? c) && (c <=? 57)).

(** The literal part of a pattern, matched at the head of [s]; the result
    is what follows it. *)
Fixpoint strip_literal (lit s : str) : option str :=
  match lit, s with
  | [], _ => Some s
  | a :: lit', b :: s' => if N.eqb a b then strip_literal lit' s' else None
  | _ :: _, [] => None
  end.

(** The greedy group [([a-zA-Z0-9]+)]: the longest run at the head of [s]. *)
Fixpoint alnum_run (s : str) : str :=
  match s with
  | c :: s' => if is_alnum c then c :: alnum_run s' else []
  | [] => []
  end.

(** An attempt to match [lit([a-zA-Z0-9]+)] at the head of [s]; on success
    the captured group. *)
Definition match_here (lit s : str) : option str :=
  match strip_literal lit s with
  | Some rest =>
      match alnum_run rest with
      | [] => None
      | g => Some g
      end
  | None => None
  end.

(** [re.search(pattern, s)] followed by [match.group(1)]: the attempt is made
    at each position from the left, the first success wins. *)
Fixpoint re_search (lit s : str) : option str :=
  match match_here lit s with
  | Some g => Some g
  | None =>
      match s with
      | [] => None
      | _ :: s' => re_search lit s'
      end
  end.

(** The two patterns, by their literal part. *)
Definition patterns : list str := [py "playlist/"; py "playlist:"].

(** The loop [for pattern in patterns], leaving at the first match. *)
Fixpoint search_patterns (ps : list str) (playlist_url : str) : option str :=
  match ps with
  | [] => None
  | pattern :: ps' =>
      match re_search pattern playlist_url with
      | Some g => Some g
      | None => search_patterns ps' playlist_url
      end
  end.

Definition extract_playlist_id (playlist_url : str) : option str :=
  search_patterns patterns playlist_url.

(** The specification's reading of a pattern: [lit] occurs at offset [n] of
    [s], followed by the non-empty run [g] of alphanumeric characters that
    cannot be extended. *)
Definition occurs_at (lit s : str) (n : nat) (g : str) : Prop :=
  ∃ rest, drop n s = lit ++ g ++ rest
          ∧ g ≠ [] ∧ Forall (λ c, is_alnum c = true) g
          ∧ head (List.map is_alnum rest) ≠ Some true.

(** [g] is the capture of the leftmost occurrence of the pattern in [s]. *)
Definition leftmost (lit s g : str) : Prop :=
  ∃ n, occurs_at lit s n g ∧ ∀ m g', (m < n)%nat → ¬ occurs_at lit s m g'.

(** The pattern occurs nowhere in [s]. *)
Definition nowhere (lit s : str) : Prop := ∀ n g, ¬ occurs_at lit s n g.


#[global] Instance allowed_dec (c : N) : Decision (allowed c).
Proof. unfold allowed, is_ascii_letter, is_ascii_digit, is_punct_allowed. apply _. Defined.

(** ** Catalog data, exceptions, events *)

(** One entry of a track's ['artists'] list. *)
Record artist := { artist_name : str }.

(** The object under ['track'] of a playlist item. *)
Record track := {
  track_type : str;               (* track['type'] *)
  track_artists : list artist;    (* track['artists'] *)
  track_name : str                (* track['name'] *)
}.

(** A playlist item; [track_info['track']] is [None] for a slot whose entry
    is no longer available. *)
Record item := { item_track : option track }.

(** The exceptions the program can meet; all derive from [Exception]. *)
Inductive exn :=
| TypeError (msg : str)
| IndexError (msg : str)
| ExternalError (msg : str).

(** [str(e)] *)
Definition str_of_exn (e : exn) : str :=
  match e with
  | TypeError msg | IndexError msg | ExternalError msg => msg
  end.

Inductive result (A : Type) :=
| Ok (a : A)
| Raise (e : exn).
Arguments Ok {A} a.
Arguments Raise {A} e.

(** The calls that leave the program, as recorded in the log. *)
Inductive event :=
| EvPlaylist (playlist_id : str)                 (* sp.playlist *)
| EvMakedirs (path : str)                        (* os.makedirs *)
| EvPage (playlist_id : str) (limit offset : nat) (* sp.playlist_tracks *)
| EvSearch (url : str)                           (* urllib.request.urlopen *)
| EvDownload (outtmpl video_url : str).          (* YoutubeDL.download *)

Definition is_search (ev : event) : bool :=
  match ev with EvSearch _ => true | _ => false end.
Definition is_download (ev : event) : bool :=
  match ev with EvDownload _ _ => true | _ => false end.

(** ** The outside world *)

(** What the program uses and does not define.  [path_join] is
    [os.path.join] and [quote] is [urllib.parse.quote]; [path_exists] is
    [os.path.exists]; [urlopen_read url] is
    [urllib.request.urlopen(url).read().decode()]; [ydl_download outtmpl url]
    is [YoutubeDL(ydl_opts).download([url])] with that ['outtmpl'];
    [sp_playlist_name] is [self.sp.playlist(id)['name']] and
    [sp_playlist_tracks] is [self.sp.playlist_tracks(id, limit, offset)['items']]
    (both raise when [self.sp] is [None]). *)
Class External := {
  world : Type;
  path_join : str → str → str;
  quote : str → str;
  path_exists : str → world → bool;
  makedirs : str → world → result unit * world;
  urlopen_read : str → world → result str * world;
  ydl_download : str → str → world → result unit * world;
  sp_playlist_name : str → world → result str * world;
  sp_playlist_tracks : str → nat → nat → world → result (list item) * world
}.

(** ** The progress record and the object state *)

(** The values stored in [download_progress]. *)
Inductive value :=
| VInt (n : Z)
| VStr (s : str).

(** The fields of [SpotifyDownloaderAPI] the download run reads or writes. *)
Record api := {
  is_downloading : bool;
  download_progress : gmap string value;
  download_path : str
}.

Definition set_is_downloading (b : bool) (a : api) : api :=
  {| is_downloading := b;
     download_progress := download_progress a;
     download_path := download_path a |}.

(** [self.download_progress = d] *)
Definition set_progress (d : gmap string value) (a : api) : api :=
  {| is_downloading := is_downloading a;
     download_progress := d;
     download_path := download_path a |}.

(** [self.download_progress[k] = v] *)
Definition progress_put (k : string) (v : value) (a : api) : api :=
  set_progress (<[k := v]> (download_progress a)) a.

(** The state left by [__init__], for the default download path [home]. *)
Definition init_api (home : str) : api :=
  {| is_downloading := false;
     download_progress :=
       {["current" := VInt 0; "total" := VInt 0; "status" := VStr (py "idle")]};
     download_path := home |}.

(** The dictionaries the calls return to the presentation layer. *)
Inductive reply :=
| ReplySuccess (message : str)    (* {"success": True, "message": ...} *)
| ReplyError (error : str).       (* {"error": ...} *)

Section Program.
Context {E : External}.

(** ** Computations: world and log threaded, exceptions propagated *)

Definition M (A : Type) : Type :=
  world * list event → result A * (world * list event).

Definition ret {A} (a : A) : M A := λ s, (Ok a, s).

Definition bind {A B} (m : M A) (k : A → M B) : M B :=
  λ s, match m s with
       | (Ok a, s') => k a s'
       | (Raise e, s') => (Raise e, s')
       end.

Definition raise {A} (e : exn) : M A := λ s, (Raise e, s).

(** [try: m  except Exception as e: h e] *)
Definition try_except {A} (m : M A) (h : exn → M A) : M A :=
  λ s, match m s with
       | (Ok a, s') => (Ok a, s')
       | (Raise e, s') => h e s'
       end.

(** An outside call, recorded in the log. *)
Definition call {A} (ev : event) (op : world → result A * world) : M A :=
  λ s, let (r, w') := op (fst s) in (r, (w', snd s ++ [ev])).

(** [os.path.exists]: reads the world, changes nothing. *)
Definition os_path_exists (p : str) : M bool :=
  λ s, (Ok (path_exists p (fst s)), s).

End Program.

Notation "x <- m ;; k" := (bind m (λ x, k))
  (at level 100, m at level 99, right associativity).
Notation "m ;;; k" := (bind m (λ _, k))
  (at level 100, right associativity).

Section Code.
Context {E : External}.

(** ** [get_playlist_tracks] *)

Definition limit : nat := 100.

(** One round of the [while True] loop: fetch a page and extend [tracks];
    [inl] is the [break] with the list to return, [inr] the next round's
    [tracks] and [offset]. *)
Definition fetch_page (playlist_id : str) (tracks : list item) (offset : nat)
  : M (list item + list item * nat) :=
  items <- call (EvPage playlist_id limit offset)
                (sp_playlist_tracks playlist_id limit offset) ;;
  let tracks := tracks ++ items in
  if (length items <? limit)%nat then ret (inl tracks)
  else ret (inr (tracks, (offset + limit)%nat)).

(** The loop, unrolled at most [fuel] times; [None] when the catalog has not
    yet served a short page. *)
Fixpoint get_playlist_tracks_from (fuel : nat) (playlist_id : str)
    (tracks : list item) (offset : nat) : M (option (list item)) :=
  match fuel with
  | O => ret None
  | S fuel' =>
      r <- fetch_page playlist_id tracks offset ;;
      match r with
      | inl tracks => ret (Some tracks)
      | inr (tracks, offset) =>
          get_playlist_tracks_from fuel' playlist_id tracks offset
      end
  end.

Definition get_playlist_tracks (fuel : nat) (playlist_id : str)
  : M (option (list item)) :=
  get_playlist_tracks_from fuel playlist_id [] 0%nat.

(** ** [download_track] *)

(** The class [\S] of a [str] pattern: everything but Unicode whitespace. *)
Definition is_space (c : N) : bool :=
  ((9 <=? c) && (c <=? 13)) || ((28 <=? c) && (c <=? 32))
  || (c =? 133) || (c =? 160) || (c =? 5760)
  || ((8192 <=? c) && (c <=? 8202))
  || (c =? 8232) || (c =? 8233) || (c =? 8239) || (c =? 8287)
  || (c =? 12288).

(** [watch\?v=(\S{11})] at the head of [s]. *)
Definition match_watch (s : str) : option str :=
  match strip_literal (py "watch?v=") s with
  | Some rest =>
      let g := take 11 rest in
      if (length g =? 11)%nat && forallb (λ c, negb (is_space c)) g
      then Some g else None
  | None => None
  end.

(** [re.findall(r"watch\?v=(\S{11})", s)]: matches do not overlap, so after
    a match the scan resumes behind its 19 characters; [skip] counts the
    characters of the last match still to pass. *)
Fixpoint findall_watch (skip : nat) (s : str) : list str :=
  match s with
  | [] => []
  | _ :: s' =>
      match skip with
      | S skip' => findall_watch skip' s'
      | O =>
          match match_watch s with
          | Some g => g :: findall_watch 18 s'
          | None => findall_watch 0 s'
          end
      end
  end.

(** [track['artists'][0]['name']] *)
Definition first_artist_name (t : track) : M str :=
  match track_artists t with
  | a :: _ => ret (artist_name a)
  | [] => raise (IndexError (py "list index out of range"))
  end.

(** [f"{artist_name} - {track_name}"] sanitized. *)
Definition sanitized_name_of (artist_name track_name : str) : str :=
  sanitize_filename (artist_name ++ py " - " ++ track_name).

(** [os.path.join(download_folder, f"{sanitized_name}.mp3")] *)
Definition final_file_of (download_folder sanitized_name : str) : str :=
  path_join download_folder (sanitized_name ++ py ".mp3").

(** The ['outtmpl'] option. *)
Definition outtmpl_of (download_folder sanitized_name : str) : str :=
  path_join download_folder (sanitized_name ++ py ".%(ext)s").

Definition search_url (track_name artist_name : str) : str :=
  py "https://www.youtube.com/results?search_query="
  ++ quote (track_name ++ py " " ++ artist_name ++ py " official").

Definition video_url_of (video_id : str) : str :=
  py "https://www.youtube.com/watch?v=" ++ video_id.

(** The loop [for video_id in video_ids[:3]], given that slice: the first
    download that does not raise ends the function with [True]; an
    exception is logged and the next candidate is tried. *)
Fixpoint try_candidates (download_folder sanitized_name : str)
    (video_ids : list str) : M bool :=
  match video_ids with
  | [] => ret false
  | video_id :: rest =>
      done <- try_except
                (call (EvDownload (outtmpl_of download_folder sanitized_name)
                                  (video_url_of video_id))
                      (ydl_download (outtmpl_of download_folder sanitized_name)
                                    (video_url_of video_id)) ;;;
                 ret true)
                (λ _, ret false) ;;
      if done : bool then ret true
      else try_candidates download_folder sanitized_name rest
  end.

(** The body of the outer [try] of [download_track]. *)
Definition download_track_body (track_info : item) (download_folder : str)
  : M bool :=
  match item_track track_info with
  | None => ret false
  | Some track =>
      if bool_decide (track_type track ≠ py "track") then ret false
      else
        artist_name <- first_artist_name track ;;
        let track_name := track_name track in
        let sanitized_name := sanitized_name_of artist_name track_name in
        let final_file := final_file_of download_folder sanitized_name in
        present <- os_path_exists final_file ;;
        if present : bool then ret true
        else
          found <- try_except
                     (html <- call (EvSearch (search_url track_name artist_name))
                                   (urlopen_read (search_url track_name artist_name)) ;;
                      ret (Some (findall_watch 0 html)))
                     (λ _, ret None) ;;
          match found with
          | None => ret false
          | Some [] => ret false
          | Some video_ids =>
              try_candidates download_folder sanitized_name (take 3 video_ids)
          end
  end.

Definition download_track (track_info : item) (download_folder : str)
  : M bool :=
  try_except (download_track_body track_info download_folder)
             (λ _, ret false).

End Code.

Section Run.
Context {E : External}.

(** ** The background run: [start_download.download_worker]

    The run executes on a thread of its own while the foreground keeps
    serving [start_download] and [stop_download].  A worker is the
    continuation of [download_worker]; one step executes the code up to
    the next point where the foreground may be scheduled. *)
Inductive worker :=
| WStart (playlist_url : str)
    (* thread started, nothing executed yet *)
| WResolve (playlist_url : str)
    (* flag set and progress reset; about to resolve the playlist *)
| WFetch (playlist_id download_folder : str) (tracks : list item) (offset : nat)
    (* in [get_playlist_tracks], at the head of its [while] loop *)
| WLoop (download_folder : str) (i : nat) (rest : list item)
        (successful_downloads : nat)
    (* at the head of the [for] loop; [rest] are the tracks from index [i] *)
| WBody (download_folder : str) (i : nat) (track_info : item)
        (rest : list item) (successful_downloads : nat)
    (* past the check of track [i]; about to call [download_track] *)
| WDone.

(** The [except Exception as e] clause of [download_worker]. *)
Definition on_exception (e : exn) (a : api) : api :=
  set_is_downloading false
    (progress_put "error" (VStr (str_of_exn e))
       (progress_put "status" (VStr (py "error")) a)).

(** [not playlist_id]: [None] and the empty string are both false. *)
Definition no_id (playlist_id : option str) : bool :=
  match playlist_id with
  | None | Some [] => true
  | Some (_ :: _) => false
  end.

(** Metadata fetch and destination folder: the code between the
    resolution of the identifier and the call of [get_playlist_tracks]. *)
Definition prepare_folder (a : api) (playlist_id : str) : M str :=
  name <- call (EvPlaylist playlist_id) (sp_playlist_name playlist_id) ;;
  let playlist_name := sanitize_filename name in
  let download_folder := path_join (download_path a) playlist_name in
  call (EvMakedirs download_folder) (makedirs download_folder) ;;;
  ret download_folder.

(** [f"{track_info['track']['artists'][0]['name']} - {track_info['track']['name']}"] *)
Definition current_track_label (track_info : item) : M str :=
  match item_track track_info with
  | None => raise (TypeError (py "'NoneType' object is not subscriptable"))
  | Some t =>
      artist_name <- first_artist_name t ;;
      ret (artist_name ++ py " - " ++ track_name t)
  end.

Definition worker_step (wk : worker) (a : api) (st : world * list event)
  : worker * api * (world * list event) :=
  match wk with
  | WStart playlist_url =>
      let a := set_is_downloading true a in
      let a := set_progress
                 {["current" := VInt 0; "total" := VInt 0;
                   "status" := VStr (py "starting")]} a in
      (WResolve playlist_url, a, st)
  | WResolve playlist_url =>
      let playlist_id := extract_playlist_id playlist_url in
      if no_id playlist_id then
        let a := progress_put "status" (VStr (py "error")) a in
        let a := progress_put "error" (VStr (py "Invalid playlist URL")) a in
        (WDone, a, st)
      else
        let playlist_id := default [] playlist_id in
        match prepare_folder a playlist_id st with
        | (Ok download_folder, st) =>
            (WFetch playlist_id download_folder [] 0%nat, a, st)
        | (Raise e, st) => (WDone, on_exception e a, st)
        end
  | WFetch playlist_id download_folder tracks offset =>
      match fetch_page playlist_id tracks offset st with
      | (Ok (inr (tracks, offset)), st) =>
          (WFetch playlist_id download_folder tracks offset, a, st)
      | (Ok (inl tracks), st) =>
          let total_tracks := length tracks in
          let a := progress_put "total" (VInt (Z.of_nat total_tracks)) a in
          let a := progress_put "status" (VStr (py "downloading")) a in
          (WLoop download_folder 0%nat tracks 0%nat, a, st)
      | (Raise e, st) => (WDone, on_exception e a, st)
      end
  | WLoop download_folder i rest successful_downloads =>
      match rest with
      | track_info :: rest =>
          if negb (is_downloading a) then
            (WDone, progress_put "status" (VStr (py "cancelled")) a, st)
          else
            let a := progress_put "current" (VInt (Z.of_nat (i + 1))) a in
            match current_track_label track_info st with
            | (Ok label, st) =>
                let a := progress_put "current_track" (VStr label) a in
                (WBody download_folder i track_info rest successful_downloads,
                 a, st)
            | (Raise e, st) => (WDone, on_exception e a, st)
            end
      | [] =>
          let a := progress_put "status" (VStr (py "completed")) a in
          let a := progress_put "successful"
                     (VInt (Z.of_nat successful_downloads)) a in
          (WDone, set_is_downloading false a, st)
      end
  | WBody download_folder i track_info rest successful_downloads =>
      match download_track track_info download_folder st with
      | (Ok true, st) =>
          (WLoop download_folder (i + 1) rest (successful_downloads + 1), a, st)
      | (Ok false, st) =>
          (WLoop download_folder (i + 1) rest successful_downloads, a, st)
      | (Raise e, st) => (WDone, on_exception e a, st)
      end
  | WDone => (WDone, a, st)
  end.

(** ** The object with its threads *)

Record system := {
  sys_api : api;
  sys_threads : list worker;
  sys_state : world * list event
}.

(** A freshly constructed object. *)
Definition init_system (home : str) (w : world) : system :=
  {| sys_api := init_api home; sys_threads := []; sys_state := (w, []) |}.

(** [start_download], the part that runs on the caller's thread. *)
Definition start_download (playlist_url : str) (s : system) : reply * system :=
  if negb (is_downloading (sys_api s)) then
    (ReplySuccess (py "Download started"),
     {| sys_api := sys_api s;
        sys_threads := sys_threads s ++ [WStart playlist_url];
        sys_state := sys_state s |})
  else (ReplyError (py "Download already in progress"), s).

Definition stop_download (s : system) : reply * system :=
  (ReplySuccess (py "Download stopped"),
   {| sys_api := set_is_downloading false (sys_api s);
      sys_threads := sys_threads s;
      sys_state := sys_state s |}).

(** [get_download_progress] *)
Definition get_download_progress (s : system) : gmap string value :=
  download_progress (sys_api s).

(** One step of thread [t]; nothing happens when there is no such thread. *)
Definition run_thread (t : nat) (s : system) : system :=
  match sys_threads s !! t with
  | Some wk =>
      let '(wk', a, st) := worker_step wk (sys_api s) (sys_state s) in
      {| sys_api := a;
         sys_threads := <[t := wk']> (sys_threads s);
         sys_state := st |}
  | None => s
  end.

(** What can happen next: a call from the presentation layer, or a step of
    a background thread. *)
Inductive action :=
| Start (playlist_url : str)
| Stop
| Run (t : nat).

Definition exec (act : action) (s : system) : system :=
  match act with
  | Start playlist_url => snd (start_download playlist_url s)
  | Stop => snd (stop_download s)
  | Run t => run_thread t s
  end.

Fixpoint exec_all (sched : list action) (s : system) : system :=
  match sched with
  | [] => s
  | act :: sched' => exec_all sched' (exec act s)
  end.

(** The states passed while [sched] executes, one per action. *)
Fixpoint states_along (sched : list action) (s : system) : list system :=
  match sched with
  | [] => []
  | act :: sched' => exec act s :: states_along sched' (exec act s)
  end.

(** ** Observations *)

Definition field (k : string) (s : system) : option value :=
  download_progress (sys_api s) !! k.

Definition status (s : system) : option value := field "status" s.

Definition statuses : list str :=
  [py "idle"; py "starting"; py "downloading";
   py "completed"; py "cancelled"; py "error"].

Definition terminal_statuses : list str :=
  [py "completed"; py "cancelled"; py "error"].

(** A background unit that has been started and has not finished. *)
Definition live (wk : worker) : bool :=
  match wk with WDone => false | _ => true end.


(** No background unit is live. *)
Definition quiescent (s : system) : Prop :=
  Forall (λ wk, live wk = false) (sys_threads s).

(** A schedule in which the foreground only asks to stop and only thread
    [t] runs: a run observed in isolation. *)
Definition solo (t : nat) (sched : list action) : Prop :=
  Forall (λ act, act = Stop ∨ act = Run t) sched.

End Run.

(** ** A simulated world

    A closed instance of the interface, to run the model on concrete
    inputs: the world is the list of paths that exist; the catalog serves
    slices of a fixed track list; search pages and download outcomes are
    fixed by the scenario; a download that works leaves the [.mp3] file of
    its template. *)
Record scenario := {
  sc_name : str;                 (* the playlist's name *)
  sc_tracks : list item;         (* its items, in catalog order *)
  sc_page : str → result str;    (* search URL to result page *)
  sc_video_ok : str → bool       (* video URL to download outcome *)
}.

(** The file a template [<stem>.%(ext)s] ends up as. *)
Definition mp3_of (outtmpl : str) : str :=
  take (length outtmpl - 8) outtmpl ++ py ".mp3".

Definition sim (sc : scenario) : External := {|
  world := list str;
  path_join a b := a ++ py "/" ++ b;
  quote s := s;
  path_exists p w := bool_decide (p ∈ w);
  makedirs p w := (Ok tt, p :: w);
  urlopen_read url w := (sc_page sc url, w);
  ydl_download outtmpl url w :=
    if sc_video_ok sc url then (Ok tt, mp3_of outtmpl :: w)
    else (Raise (ExternalError (py "download failed")), w);
  sp_playlist_name _ w := (Ok (sc_name sc), w);
  sp_playlist_tracks _ limit offset w :=
    (Ok (take limit (drop offset (sc_tracks sc))), w)
|}.

(** A playable track by one artist. *)
Definition song (artist_ name : string) : item :=
  {| item_track := Some {| track_type := py "track";
                           track_artists := [{| artist_name := py artist_ |}];
                           track_name := py name |} |}.

(** A slot whose entry is gone: [{'track': None}]. *)
Definition gone : item := {| item_track := None |}.

(** A result page that lists the given video identifiers. *)
Definition page_of (ids : list string) : str :=
  concat (List.map (λ i, py "<a href=/watch?v=" ++ py i ++ py "> ") ids).

Definition good_url : str :=
  py "https://open.spotify.com/playlist/37i9dQZF1DXcBWIGoYBM5M".

(** A playlist of 250 playable tracks, nothing to be found for any. *)
Definition sc250 : scenario := {|
  sc_name := py "Long mix";
  sc_tracks := replicate 250 (song "Artist" "Title");
  sc_page := λ _, Ok [];
  sc_video_ok := λ _, false
|}.

(** A playlist of three slots, the second one gone; every search lists two
    videos, of which only the second can be downloaded. *)
Definition sc_mix : scenario := {|
  sc_name := py "Mix";
  sc_tracks := [song "A" "B"; gone; song "C" "D"];
  sc_page := λ _, Ok (page_of ["aaaaaaaaaaa"; "bbbbbbbbbbb"]);
  sc_video_ok := λ url, bool_decide (url = video_url_of (py "bbbbbbbbbbb"))
|}.

(** The object as constructed, in the world of [sc_mix] with no file yet. *)
Definition mix_init : system (E := sim sc_mix) :=
  init_system (E := sim sc_mix) (py "/music") [].

(** The run over [sc_mix], left alone until it ends. *)
Definition mix_run : system (E := sim sc_mix) :=
  exec_all (E := sim sc_mix) (Start good_url :: replicate 6 (Run 0%nat)) mix_init.


(** A run on an input that is no playlist URL, left alone until it ends. *)
Definition bad_url_run : system (E := sim sc_mix) :=
  exec_all (E := sim sc_mix)
    [Start (py "not a url"); Run 0%nat; Run 0%nat] mix_init.

(** Two tracks that differ in a character the sanitizer drops, so that
    both have the same target file; the search finds a video for the
    second only, and that video can be downloaded. *)
Definition sc_twins : scenario := {|
  sc_name := py "Twins";
  sc_tracks := [song "A" "B?"; song "A" "B"];
  sc_page := λ url,
    if bool_decide
         (url = py "https://www.youtube.com/results?search_query=B A official")
    then Ok (page_of ["bbbbbbbbbbb"]) else Ok [];
  sc_video_ok := λ _, true
|}.

Definition twins_init : system (E := sim sc_twins) :=
  init_system (E := sim sc_twins) (py "/music") [].

(** A first run over [sc_twins], left alone until it ends. *)
Definition twins_first : system (E := sim sc_twins) :=
  exec_all (E := sim sc_twins) (Start good_url :: replicate 8 (Run 0%nat))
    twins_init.

(** A second run after the first, again left alone until it ends. *)
Definition twins_second : system (E := sim sc_twins) :=
  exec_all (E := sim sc_twins) (Start good_url :: replicate 8 (Run 1%nat))
    twins_first.

(** The status values of the given names. *)
Definition seen_as (names : list string) : list (option value) :=
  (λ name, Some (VStr (py name))) <$> names.

(** The two runs over [sc_twins] at the moment they enter the track loop. *)
Definition twins_loop_first : system (E := sim sc_twins) :=
  exec_all (E := sim sc_twins) (Start good_url :: replicate 3 (Run 0%nat))
    twins_init.

Definition twins_loop_second : system (E := sim sc_twins) :=
  exec_all (E := sim sc_twins) (Start good_url :: replicate 3 (Run 1%nat))
    twins_first.


Section Reading.
Context {E : External}.

(** ** The specification's reading of the paginated listing *)

(** Page-wise retrieval from [offset]: each request asks for [limit] items
    at the current offset; a page of fewer than [limit] items is the last;
    after any other page the offset advances by [limit]. *)
Inductive pagewise (playlist_id : str)
  : nat → world * list event → list (list item) → world * list event → Prop :=
| pagewise_last offset st page w' :
    sp_playlist_tracks playlist_id limit offset (fst st) = (Ok page, w') →
    (length page < limit)%nat →
    pagewise playlist_id offset st [page]
             (w', snd st ++ [EvPage playlist_id limit offset])
| pagewise_more offset st page w' pages st' :
    sp_playlist_tracks playlist_id limit offset (fst st) = (Ok page, w') →
    (limit ≤ length page)%nat →
    pagewise playlist_id (offset + limit)
             (w', snd st ++ [EvPage playlist_id limit offset]) pages st' →
    pagewise playlist_id offset st (page :: pages) st'.

(** The catalog holds the list [items] for the playlist and serves its
    slices, whatever the state of the world. *)
Definition serves (playlist_id : str) (items : list item) : Prop :=
  ∀ limit offset w,
    fst (sp_playlist_tracks playlist_id limit offset w)
    = Ok (take limit (drop offset items)).

(** The [j]-th page of [items]. *)
Definition page_at (items : list item) (j : nat) : list item :=
  take limit (drop (j * limit) items).

(** The pages a list of items is served in. *)
Definition pages_of (items : list item) : list (list item) :=
  page_at items <$> seq 0 (S (length items / limit)).

(** The requests that go with them. *)
Definition requests_of (playlist_id : str) (items : list item) : list event :=
  (λ j, EvPage playlist_id limit (j * limit)) <$> seq 0 (S (length items / limit)).

(** ** The specification's reading of the worker *)

(** The candidates are attempted in order with the template [outtmpl]; the
    first download that returns normally ends the attempts with [true]; a
    download that raises is passed over; with no candidate left the
    outcome is [false]. *)
Inductive attempts (outtmpl : str)
  : list str → world * list event → bool → world * list event → Prop :=
| attempts_none st :
    attempts outtmpl [] st false st
| attempts_hit video_id rest st w' :
    ydl_download outtmpl (video_url_of video_id) (fst st) = (Ok tt, w') →
    attempts outtmpl (video_id :: rest) st true
             (w', snd st ++ [EvDownload outtmpl (video_url_of video_id)])
| attempts_miss video_id rest st e w' b st' :
    ydl_download outtmpl (video_url_of video_id) (fst st) = (Raise e, w') →
    attempts outtmpl rest
             (w', snd st ++ [EvDownload outtmpl (video_url_of video_id)]) b st' →
    attempts outtmpl (video_id :: rest) st b st'.

(** A playable entry: a track object of type ['track']. *)
Definition playable (track_info : item) (t : track) : Prop :=
  item_track track_info = Some t ∧ track_type t = py "track".

(** The outcomes of the worker for one track, step by step as the
    specification lists them. *)
Inductive fetches (track_info : item) (download_folder : str)
  : world * list event → bool → world * list event → Prop :=
| fetches_gone st :
    item_track track_info = None →
    fetches track_info download_folder st false st
| fetches_not_track t st :
    item_track track_info = Some t → track_type t ≠ py "track" →
    fetches track_info download_folder st false st
| fetches_no_artist t st :
    playable track_info t → track_artists t = [] →
    fetches track_info download_folder st false st
| fetches_present t a others st :
    playable track_info t → track_artists t = a :: others →
    path_exists (final_file_of download_folder
                   (sanitized_name_of (artist_name a) (track_name t)))
                (fst st) = true →
    fetches track_info download_folder st true st
| fetches_search_fails t a others st e w' :
    playable track_info t → track_artists t = a :: others →
    path_exists (final_file_of download_folder
                   (sanitized_name_of (artist_name a) (track_name t)))
                (fst st) = false →
    urlopen_read (search_url (track_name t) (artist_name a)) (fst st)
      = (Raise e, w') →
    fetches track_info download_folder st false
            (w', snd st ++ [EvSearch (search_url (track_name t) (artist_name a))])
| fetches_no_candidate t a others st html w' :
    playable track_info t → track_artists t = a :: others →
    path_exists (final_file_of download_folder
                   (sanitized_name_of (artist_name a) (track_name t)))
                (fst st) = false →
    urlopen_read (search_url (track_name t) (artist_name a)) (fst st)
      = (Ok html, w') →
    findall_watch 0 html = [] →
    fetches track_info download_folder st false
            (w', snd st ++ [EvSearch (search_url (track_name t) (artist_name a))])
| fetches_candidates t a others st html w' b st' :
    playable track_info t → track_artists t = a :: others →
    path_exists (final_file_of download_folder
                   (sanitized_name_of (artist_name a) (track_name t)))
                (fst st) = false →
    urlopen_read (search_url (track_name t) (artist_name a)) (fst st)
      = (Ok html, w') →
    findall_watch 0 html ≠ [] →
    attempts (outtmpl_of download_folder
                (sanitized_name_of (artist_name a) (track_name t)))
             (take 3 (findall_watch 0 html))
             (w', snd st ++ [EvSearch (search_url (track_name t) (artist_name a))])
             b st' →
    fetches track_info download_folder st b st'.

(** ** The specification's reading of a run *)

(** The stage of a run a worker is in: not begun (0), resolving and
    listing (1), in the track loop (2), ended (3). *)
Definition stage (wk : worker) : nat :=
  match wk with
  | WStart _ => 0
  | WResolve _ | WFetch _ _ _ _ => 1
  | WLoop _ _ _ _ | WBody _ _ _ _ _ => 2
  | WDone => 3
  end.

(** How far a live worker has come. *)
Definition position (wk : worker) : nat :=
  match wk with
  | WStart _ => 0
  | WResolve _ => 1
  | WFetch _ _ _ _ => 2
  | WLoop _ i _ _ => 3 + 2 * i
  | WBody _ i _ _ _ => 4 + 2 * i
  | WDone => 0
  end.

(** The number of tracks whose processing has begun. *)
Definition begun (wk : worker) : nat :=
  match wk with
  | WLoop _ i _ _ => i
  | WBody _ i _ _ _ => i + 1
  | _ => 0
  end.

(** The life cycle of the status field over one run. *)
Inductive phase :=
| Fresh                   (* the run has not written the field yet *)
| Starting
| Downloading
| Ended (final : str).

Definition named (x : option value) (name : string) : Prop :=
  x = Some (VStr (py name)).

(** [lifecycle before p seen]: from phase [p] on, the successive values
    [seen] of the status field follow
    [before* starting+ (error | downloading+ final)] with one terminal
    value [final], which then stays. *)
Fixpoint lifecycle (before : option value) (p : phase)
    (seen : list (option value)) : Prop :=
  match seen with
  | [] => True
  | x :: seen' =>
      match p with
      | Fresh =>
          (x = before ∧ lifecycle before Fresh seen')
          ∨ (named x "starting" ∧ lifecycle before Starting seen')
      | Starting =>
          (named x "starting" ∧ lifecycle before Starting seen')
          ∨ (named x "downloading" ∧ lifecycle before Downloading seen')
          ∨ (named x "error" ∧ lifecycle before (Ended (py "error")) seen')
      | Downloading =>
          (named x "downloading" ∧ lifecycle before Downloading seen')
          ∨ (∃ final, final ∈ terminal_statuses ∧ x = Some (VStr final)
                      ∧ lifecycle before (Ended final) seen')
      | Ended final =>
          x = Some (VStr final) ∧ lifecycle before (Ended final) seen'
      end
  end.

(** What a phase says of thread [t] and of the status field. *)
Definition in_phase (before : option value) (t : nat) (p : phase)
    (s : system) : Prop :=
  match p with
  | Fresh =>
      status s = before
      ∧ ∀ wk, sys_threads s !! t = Some wk → stage wk = 0%nat
  | Starting =>
      named (status s) "starting"
      ∧ ∃ wk, sys_threads s !! t = Some wk ∧ stage wk = 1%nat
  | Downloading =>
      named (status s) "downloading"
      ∧ ∃ wk, sys_threads s !! t = Some wk ∧ stage wk = 2%nat
  | Ended final =>
      final ∈ terminal_statuses ∧ status s = Some (VStr final)
      ∧ sys_threads s !! t = Some WDone
  end.

(** The tracks still ahead of a worker in the loop. *)
Definition remaining (wk : worker) : nat :=
  match wk with
  | WLoop _ _ rest _ | WBody _ _ _ rest _ => length rest
  | _ => 0
  end.

(** The counters of the progress record agree with the worker: the
    current index is the number of tracks begun, and in the loop the total
    is that number plus the tracks ahead. *)
Definition counted (wk : worker) (a : api) : Prop :=
  (stage wk = 1%nat ∨ stage wk = 2%nat →
     download_progress a !! "current" = Some (VInt (Z.of_nat (begun wk))))
  ∧ (stage wk = 2%nat →
     download_progress a !! "total"
     = Some (VInt (Z.of_nat (begun wk + remaining wk)))).

(** After a stop request while the worker [wk] of thread [t] waits at the
    head of the loop in state [s0]: in [s] it still waits there with the
    flag clear, or it has ended the run as cancelled; the progress record
    is otherwise as it was, and so are the world and the log. *)
Definition stopped_at (t : nat) (wk : worker) (s0 s : system) : Prop :=
  sys_state s = sys_state s0
  ∧ ((sys_threads s !! t = Some wk
      ∧ is_downloading (sys_api s) = false
      ∧ download_progress (sys_api s) = download_progress (sys_api s0))
     ∨ (sys_threads s !! t = Some WDone
        ∧ download_progress (sys_api s)
          = <["status" := VStr (py "cancelled")]>
              (download_progress (sys_api s0)))).

(** ** The specification's reading of a repeated run *)

(** Every path that exists in [w] exists in [w']: nothing was deleted. *)
Definition keeps (w w' : world) : Prop :=
  ∀ p, path_exists p w = true → path_exists p w' = true.

(** Neither the search nor the download deletes a file. *)
Definition no_deletions : Prop :=
  (∀ url w, keeps w (snd (urlopen_read url w)))
  ∧ (∀ outtmpl url w, keeps w (snd (ydl_download outtmpl url w))).

(** A download that returns normally leaves the target file of its
    template. *)
Definition downloads_land : Prop :=
  ∀ folder name url w w',
    ydl_download (outtmpl_of folder name) url w = (Ok tt, w') →
    path_exists (final_file_of folder name) w' = true.

(** An item for which the label of the progress record can be built: it
    has a track object with a first artist. *)
Definition labelled (track_info : item) : Prop :=
  ∃ t a others, item_track track_info = Some t ∧ track_artists t = a :: others.

(** The state [m] steps of thread [t] after [s]. *)
Definition after (m t : nat) (s : system) : system :=
  exec_all (replicate m (Run t)) s.

End Reading.

(** * Further code of the repository *)

(** ** [config.get_safe_filename] *)

(** [INVALID_CHARS]: the characters [<>:], the double quote, [/], the
    backslash and [|?*]. *)
Definition INVALID_CHARS : str := [60; 62; 58; 34; 47; 92; 124; 63; 42].

Definition MAX_FILENAME_LENGTH : nat := 255.

(** [s.replace(old, new)] for single characters. *)
Definition replace_char (old new : N) (s : str) : str :=
  (λ c, if N.eqb c old then new else c) <$> s.

(** [for char in INVALID_CHARS: filename = filename.replace(char, '_')] *)
Definition replace_invalid (filename : str) : str :=
  fold_left (λ name char, replace_char char 95 name) INVALID_CHARS filename.

(** [s.split()]: the maximal runs of characters that are not whitespace;
    [word] is the run being read. *)
Fixpoint split_from (word : str) (s : str) : list str :=
  match s with
  | [] => match word with [] => [] | _ => [word] end
  | c :: s' =>
      if is_space c then
        match word with
        | [] => split_from [] s'
        | _ => word :: split_from [] s'
        end
      else split_from (word ++ [c]) s'
  end.

Definition split (s : str) : list str := split_from [] s.

(** [sep.join(words)] *)
Fixpoint join (sep : str) (words : list str) : str :=
  match words with
  | [] => []
  | [w] => w
  | w :: ws => w ++ sep ++ join sep ws
  end.

(** [s.rstrip(c)] for a single character. *)
Fixpoint rstrip (c : N) (s : str) : str :=
  match s with
  | [] => []
  | x :: s' =>
      match rstrip c s' with
      | [] => if N.eqb x c then [] else [x]
      | r => x :: r
      end
  end.

Definition get_safe_filename (filename : str) : str :=
  let filename := replace_invalid filename in
  let filename := join [95] (split filename) in
  if (MAX_FILENAME_LENGTH <? length filename)%nat
  then rstrip 95 (take MAX_FILENAME_LENGTH filename)
  else filename.

(** A character of a safe name: none of the invalid ones, no whitespace. *)
Definition safe_char (c : N) : Prop :=
  (c ∉ INVALID_CHARS) ∧ is_space c = false.

(** ** Reading a pattern against a known prefix *)

(** [lit] cannot match at the head of [s ++ _]: the two differ at a
    position both have. *)
Fixpoint differs (lit s : str) : bool :=
  match lit, s with
  | a :: lit', b :: s' => if N.eqb a b then differs lit' s' else true
  | _, _ => false
  end.

(** [lit] matches at no position of the prefix [pre], whatever follows. *)
Definition never_in (lit pre : str) : bool :=
  forallb (λ k, differs lit (drop k pre)) (seq 0 (length pre)).

Section MoreCalls.
Context {E : External}.

(** ** [set_download_path] and [get_download_path] *)

(** The dictionaries [set_download_path] returns. *)
Inductive path_reply :=
| PathSuccess (path : str)     (* {"success": True, "path": path} *)
| PathError (error : str).     (* {"error": "Invalid path: ..."} *)

(** [self.download_path = path] *)
Definition set_path (path : str) (a : api) : api :=
  {| is_downloading := is_downloading a;
     download_progress := download_progress a;
     download_path := path |}.

(** The assignment comes first, inside the [try]; [os.makedirs] follows. *)
Definition set_download_path (path : str) (s : system) : path_reply * system :=
  let a := set_path path (sys_api s) in
  match call (EvMakedirs path) (makedirs path) (sys_state s) with
  | (Ok _, st) =>
      (PathSuccess path,
       {| sys_api := a; sys_threads := sys_threads s; sys_state := st |})
  | (Raise e, st) =>
      (PathError (py "Invalid path: " ++ str_of_exn e),
       {| sys_api := a; sys_threads := sys_threads s; sys_state := st |})
  end.

(** [get_download_path], the value under ["path"]. *)
Definition get_download_path (s : system) : str := download_path (sys_api s).

(** ** [get_playlist_info] *)

(** What [get_playlist_info] reads of the object [sp.playlist] returns:
    ['name'], ['description'], ['tracks']['total'],
    ['owner']['display_name'] and the ['url'] of each of ['images']. *)
Record playlist := {
  playlist_name : str;
  playlist_description : str;
  playlist_total : Z;
  playlist_owner : str;
  playlist_images : list str
}.

(** [self.sp]: [None], or a client whose [playlist] method is the given
    function. *)
Definition client : Type := str → world → result playlist * world.

(** The dictionaries [get_playlist_info] returns. *)
Inductive info_reply :=
| InfoSuccess (name description : str) (track_count : Z) (owner : str)
              (image : option str)
| InfoError (error : str).

Definition get_playlist_info (sp : option client) (playlist_url : str)
  : M info_reply :=
  try_except
    (match sp with
     | None => ret (InfoError (py "Not authenticated with Spotify"))
     | Some sp =>
         let playlist_id := extract_playlist_id playlist_url in
         if no_id playlist_id then
           ret (InfoError (py "Invalid Spotify playlist URL"))
         else
           let playlist_id := default [] playlist_id in
           playlist <- call (EvPlaylist playlist_id) (sp playlist_id) ;;
           ret (InfoSuccess (playlist_name playlist)
                            (playlist_description playlist)
                            (playlist_total playlist)
                            (playlist_owner playlist)
                            (head (playlist_images playlist)))
     end)
    (λ e, ret (InfoError (str_of_exn e))).

(** ** What the progress record always holds *)

(** The keys the code writes and the kind of value under each:
    [current], [total] and [successful] hold integers that are not
    negative; [status], [current_track] and [error] hold strings. *)
Definition well_typed (k : string) (v : value) : Prop :=
  (k ∈ ["current"; "total"; "successful"] ∧ ∃ n, v = VInt n ∧ (0 ≤ n)%Z)
  ∨ (k ∈ ["status"; "current_track"; "error"] ∧ ∃ x, v = VStr x).

(** The two counters and the status are there, and the record holds no
    key and no kind of value but those of [well_typed]. *)
Definition well_kept (d : gmap string value) : Prop :=
  (∃ c, d !! "current" = Some (VInt c) ∧ (0 ≤ c)%Z)
  ∧ (∃ n, d !! "total" = Some (VInt n) ∧ (0 ≤ n)%Z)
  ∧ (∃ x, d !! "status" = Some (VStr x))
  ∧ (∀ k v, d !! k = Some v → well_typed k v).

(** ** Where a run leaves the flag *)

(** What can be said of the flag for the worker of a run started on
    [url]: once the run has ended the flag is clear, unless the run ended
    on [Invalid playlist URL]. *)
Definition flag_account (url : str) (wk : worker) (a : api) : Prop :=
  match wk with
  | WStart u | WResolve u => u = url
  | WDone =>
      is_downloading a = false
      ∨ (extract_playlist_id url = None
         ∧ named (download_progress a !! "status") "error"
         ∧ download_progress a !! "error"
           = Some (VStr (py "Invalid playlist URL")))
  | _ => True
  end.

End MoreCalls.

(** A catalog client that knows one playlist. *)
Definition one_playlist (sc : scenario) : client (E := sim sc) :=
  λ _ w, (Ok {| playlist_name := sc_name sc;
                playlist_description := [];
                playlist_total := Z.of_nat (length (sc_tracks sc));
                playlist_owner := py "owner";
                playlist_images := [] |}, w).

(** ** Runs and further calls of [start_download] *)



Section StartCallsReading.
Context {E : External}.



End StartCallsReading.

(** ** The download library and its option ['ignoreerrors']

    [download_track] builds the options of [YoutubeDL] with
    ['ignoreerrors': True].  With that option [YoutubeDL.download] does
    not raise on a video it cannot download: it reports the error and
    returns (with return code 1, which [download_track] does not read). *)
Definition ignoreerrors : bool := true.

(** The world of [sim] with the library's treatment of such a video
    written out; with [ignore] false it is the world of [sim]. *)
Definition sim_ydl (ignore : bool) (sc : scenario) : External := {|
  world := list str;
  path_join := path_join (External := sim sc);
  quote := quote (External := sim sc);
  path_exists := path_exists (External := sim sc);
  makedirs := makedirs (External := sim sc);
  urlopen_read := urlopen_read (External := sim sc);
  ydl_download outtmpl url w :=
    if sc_video_ok sc url then (Ok tt, mp3_of outtmpl :: w)
    else if ignore then (Ok tt, w)
    else (Raise (ExternalError (py "download failed")), w);
  sp_playlist_name := sp_playlist_name (External := sim sc);
  sp_playlist_tracks := sp_playlist_tracks (External := sim sc)
|}.

(** A track for which the search lists four videos, none of which can be
    downloaded. *)
Definition sc_dead : scenario := {|
  sc_name := py "Dead";
  sc_tracks := [song "A" "B"];
  sc_page := λ _, Ok (page_of ["aaaaaaaaaaa"; "bbbbbbbbbbb";
                               "ccccccccccc"; "ddddddddddd"]);
  sc_video_ok := λ _, false
|}.

(** * Theorems *)

(** Decide a closed decidable proposition by evaluation. *)
Ltac by_compute :=
  match goal with
  | |- ?P => refine (bool_decide_unpack P _); vm_compute; exact I
  end.

(** ** The sanitizer *)

Example sanitize_ex :
  sanitize_filename (py "AC/DC - Back: In <Black>?") = py "ACDC - Back In Black".
Proof. vm_compute. reflexivity. Qed.

Example extract_ex :
  extract_playlist_id (py "spotify:playlist:abc123?si=1") = Some (py "abc123").
Proof. vm_compute. reflexivity. Qed.

Lemma valid_chars_below : Forall (λ c, c < 128) valid_chars.
Proof. by_compute. Qed.

(** Membership in [valid_chars] and the specification's character classes
    agree on the code points below 128. *)
Lemma valid_chars_table :
  Forall (λ n, bool_decide (N.of_nat n ∈ valid_chars)
               = bool_decide (allowed (N.of_nat n))) (seq 0 128).
Proof. by_compute. Qed.

Lemma allowed_below (c : N) : allowed c → c < 128.
Proof.
  unfold allowed, is_ascii_letter, is_ascii_digit, is_punct_allowed.
  intros [[?|?]|[?|Hp]]; try lia.
  revert c Hp. apply Forall_forall.
  by_compute.
Qed.

Lemma valid_chars_allowed (c : N) : c ∈ valid_chars ↔ allowed c.
Proof.
  destruct (decide (c < 128)) as [Hlt|Hge].
  - pose proof valid_chars_table as T.
    rewrite Forall_forall in T.
    specialize (T (N.to_nat c)).
    rewrite N2Nat.id in T.
    assert (Hin : N.to_nat c ∈ seq 0 128) by (apply elem_of_seq; lia).
    specialize (T Hin).
    by rewrite <- (bool_decide_eq_true (c ∈ valid_chars)),
      <- (bool_decide_eq_true (allowed c)), T.
  - split; intros H; exfalso; apply Hge.
    + pose proof valid_chars_below as B. rewrite Forall_forall in B. by apply B.
    + by apply allowed_below.
Qed.

(** C8: [sanitize_filename] keeps exactly the characters of its input that
    are ASCII letters, digits or one of [-_.() ], in their order, and drops
    the others; an input without any allowed character gives the empty
    string; sanitizing twice is sanitizing once. *)
Theorem sanitize_filename_exact (x : str) :
  sanitize_filename x = filter allowed x
  ∧ sanitize_filename x `sublist_of` x
  ∧ Forall allowed (sanitize_filename x)
  ∧ (Forall (λ c, ¬ allowed c) x ↔ sanitize_filename x = [])
  ∧ sanitize_filename (sanitize_filename x) = sanitize_filename x.
Proof.
  assert (Heq : ∀ y, sanitize_filename y = filter allowed y).
  { intros y. unfold sanitize_filename. apply list_filter_iff.
    intros c. apply valid_chars_allowed. }
  split; [apply Heq|].
  split; [rewrite Heq; apply sublist_filter|].
  split; [rewrite Heq; apply Forall_forall; intros c Hc;
          by apply list_elem_of_filter in Hc as [? _]|].
  split.
  - rewrite Heq. split.
    + intros H. induction H as [|c l Hc _ IH]; [done|].
      rewrite filter_cons_False; done.
    + intros H. apply Forall_forall. intros c Hc Hal.
      assert (c ∈ filter allowed x) as Hin by (by apply list_elem_of_filter).
      rewrite H in Hin. by apply elem_of_nil in Hin.
  - rewrite !Heq. rewrite list_filter_filter. apply list_filter_iff. tauto.
Qed.

(** ** The playlist URL parser *)

Lemma strip_literal_spec (lit s rest : str) :
  strip_literal lit s = Some rest ↔ s = lit ++ rest.
Proof.
  revert s. induction lit as [|a lit IH]; intros s; simpl.
  - split; [by intros [= ->] | by intros ->].
  - destruct s as [|b s]; [by split|].
    destruct (N.eqb_spec a b) as [->|Hne].
    + rewrite IH. split; [by intros -> | by intros [= ->]].
    + split; [done | intros [= ? ?]; congruence].
Qed.

Lemma alnum_run_split (s : str) :
  ∃ rest, s = alnum_run s ++ rest
          ∧ Forall (λ c, is_alnum c = true) (alnum_run s)
          ∧ head (List.map is_alnum rest) ≠ Some true.
Proof.
  induction s as [|c s (rest & Hs & Hall & Hhd)]; simpl.
  - by exists [].
  - destruct (is_alnum c) eqn:Hc.
    + exists rest. split_and!; [simpl; by f_equal | by constructor | done].
    + exists (c :: s). split_and!; [done | constructor |].
      simpl. rewrite Hc. congruence.
Qed.

Lemma alnum_run_unique (g rest : str) :
  Forall (λ c, is_alnum c = true) g →
  head (List.map is_alnum rest) ≠ Some true →
  alnum_run (g ++ rest) = g.
Proof.
  intros Hall Hhd. induction Hall as [|c g Hc _ IH]; simpl.
  - destruct rest as [|c rest]; [done|]. simpl in *.
    destruct (is_alnum c); congruence.
  - by rewrite Hc, IH.
Qed.

Lemma match_here_occurs (lit s g : str) :
  match_here lit s = Some g ↔ occurs_at lit s 0 g.
Proof.
  unfold match_here, occurs_at. rewrite drop_0. split.
  - destruct (strip_literal lit s) as [r|] eqn:Hs; [|done].
    apply strip_literal_spec in Hs as ->.
    destruct (alnum_run_split r) as (rest & Hr & Hall & Hhd).
    destruct (alnum_run r) as [|c g'] eqn:Hrun; [done|].
    intros [= <-]. exists rest. by rewrite Hr at 1.
  - intros (rest & -> & Hne & Hall & Hhd).
    assert (strip_literal lit (lit ++ g ++ rest) = Some (g ++ rest)) as ->
      by by apply strip_literal_spec.
    rewrite alnum_run_unique by done. by destruct g.
Qed.

Lemma occurs_at_unique (lit s g g' : str) (n : nat) :
  occurs_at lit s n g → occurs_at lit s n g' → g = g'.
Proof.
  intros (r & H & _ & Hall & Hhd) (r' & H' & _ & Hall' & Hhd').
  rewrite H in H'. apply app_inv_head in H'.
  rewrite <- (alnum_run_unique g r), <- (alnum_run_unique g' r') by done.
  by rewrite H'.
Qed.

Lemma occurs_at_nil (lit g : str) (n : nat) : ¬ occurs_at lit [] n g.
Proof.
  intros (r & H & Hne & _). rewrite drop_nil in H.
  symmetry in H. apply app_eq_nil in H as [_ H].
  apply app_eq_nil in H as [H _]. done.
Qed.

Lemma re_search_Some (lit s g : str) :
  re_search lit s = Some g → leftmost lit s g.
Proof.
  induction s as [|c s IH]; simpl.
  - destruct (match_here lit []) as [g'|] eqn:Hm; [|done].
    intros [= ->]. apply match_here_occurs in Hm.
    by apply occurs_at_nil in Hm.
  - destruct (match_here lit (c :: s)) as [g'|] eqn:Hm.
    + intros [= ->]. exists 0%nat. split; [by apply match_here_occurs | lia].
    + intros (n & Hn & Hmin)%IH. exists (S n). split; [done|].
      intros [|m] g' Hlt Hocc.
      * apply match_here_occurs in Hocc. congruence.
      * apply (Hmin m g'); [lia | done].
Qed.

Lemma re_search_None (lit s : str) :
  re_search lit s = None → nowhere lit s.
Proof.
  induction s as [|c s IH]; simpl.
  - intros _ n g. apply occurs_at_nil.
  - destruct (match_here lit (c :: s)) as [g'|] eqn:Hm; [done|].
    intros H [|n] g Hocc.
    + apply match_here_occurs in Hocc. congruence.
    + by apply (IH H n g).
Qed.

Lemma leftmost_unique (lit s g g' : str) :
  leftmost lit s g → leftmost lit s g' → g = g'.
Proof.
  intros (n & Hn & Hmin) (n' & Hn' & Hmin').
  destruct (Nat.lt_trichotomy n n') as [Hlt|[->|Hlt]].
  - by destruct (Hmin' n g).
  - by eapply occurs_at_unique.
  - by destruct (Hmin n' g').
Qed.

Lemma leftmost_not_nowhere (lit s g : str) :
  leftmost lit s g → ¬ nowhere lit s.
Proof. intros (n & Hn & _) H. by apply (H n g). Qed.

Lemma re_search_leftmost (lit s g : str) :
  re_search lit s = Some g ↔ leftmost lit s g.
Proof.
  split; [apply re_search_Some|].
  intros H. destruct (re_search lit s) as [g'|] eqn:Hr.
  - f_equal. eapply leftmost_unique; [by apply re_search_Some | done].
  - apply re_search_None in Hr. by apply leftmost_not_nowhere in H.
Qed.

Lemma re_search_nowhere (lit s : str) :
  re_search lit s = None ↔ nowhere lit s.
Proof.
  split; [apply re_search_None|].
  intros H. destruct (re_search lit s) as [g|] eqn:Hr; [|done].
  apply re_search_Some in Hr. by apply leftmost_not_nowhere in Hr.
Qed.

(** C9: [extract_playlist_id] returns the capture of the leftmost
    occurrence of [playlist/<alnum>] when there is one, otherwise that of
    [playlist:<alnum>], otherwise nothing; the identifier is never empty;
    the two documented inputs give the documented results. *)
Theorem extract_playlist_id_spec (url : str) :
  (∀ g, extract_playlist_id url = Some g ↔
        leftmost (py "playlist/") url g
        ∨ (nowhere (py "playlist/") url ∧ leftmost (py "playlist:") url g))
  ∧ (extract_playlist_id url = None ↔
       nowhere (py "playlist/") url ∧ nowhere (py "playlist:") url)
  ∧ extract_playlist_id url ≠ Some []
  ∧ extract_playlist_id
      (py "https://open.spotify.com/playlist/37i9dQZF1DXcBWIGoYBM5M")
    = Some (py "37i9dQZF1DXcBWIGoYBM5M")
  ∧ extract_playlist_id (py "not a url") = None.
Proof.
  assert (Hsome : ∀ g, extract_playlist_id url = Some g ↔
        leftmost (py "playlist/") url g
        ∨ (nowhere (py "playlist/") url ∧ leftmost (py "playlist:") url g)).
  { intros g. unfold extract_playlist_id, patterns. simpl.
    destruct (re_search (py "playlist/") url) as [g1|] eqn:H1.
    - apply re_search_leftmost in H1. split.
      + intros [= <-]. by left.
      + intros [H|[H _]].
        * f_equal. by eapply leftmost_unique.
        * by apply leftmost_not_nowhere in H1.
    - apply re_search_nowhere in H1.
      destruct (re_search (py "playlist:") url) as [g2|] eqn:H2.
      + apply re_search_leftmost in H2. split.
        * intros [= <-]. by right.
        * intros [H|[_ H]]; [by apply leftmost_not_nowhere in H|].
          f_equal. by eapply leftmost_unique.
      + apply re_search_nowhere in H2. split; [done|].
        intros [H|[_ H]]; by apply leftmost_not_nowhere in H. }
  split; [done|]. split; [|split; [|split]].
  - unfold extract_playlist_id, patterns. simpl.
    rewrite <- !re_search_nowhere.
    destruct (re_search (py "playlist/") url); [by split; [|intros []]|].
    destruct (re_search (py "playlist:") url); by split; [|intros []].
  - intros H. apply Hsome in H as [(n & (r & _ & Hne & _) & _)
                                   |[_ (n & (r & _ & Hne & _) & _)]]; done.
  - vm_compute. reflexivity.
  - vm_compute. reflexivity.
Qed.

(** ** Reasoning about computations *)

Section MonadFacts.
Context {E : External}.

Lemma call_eq {A} ev (op : world → result A * world) st :
  call ev op st = (fst (op (fst st)), (snd (op (fst st)), snd st ++ [ev])).
Proof. unfold call. by destruct (op (fst st)). Qed.

End MonadFacts.

(** ** The paginated listing *)

Section Pagination.
Context {E : External}.

Lemma fetch_page_eq pid tracks offset st :
  fetch_page pid tracks offset st =
  match sp_playlist_tracks pid limit offset (fst st) with
  | (Ok page, w') =>
      (Ok (if (length page <? limit)%nat then inl (tracks ++ page)
           else inr (tracks ++ page, (offset + limit)%nat)),
       (w', snd st ++ [EvPage pid limit offset]))
  | (Raise e, w') => (Raise e, (w', snd st ++ [EvPage pid limit offset]))
  end.
Proof.
  unfold fetch_page, bind. rewrite call_eq.
  destruct (sp_playlist_tracks pid limit offset (fst st)) as [[page|e] w']; simpl;
    [|done].
  by destruct (length page <? limit)%nat.
Qed.

(** The loop returns a list exactly when the retrieval was page-wise, and
    the list is then the pages joined in the order received. *)
Lemma get_playlist_tracks_from_pagewise pid fuel tracks offset st result st' :
  get_playlist_tracks_from fuel pid tracks offset st = (Ok (Some result), st')
  ↔ ∃ pages, pagewise pid offset st pages st'
             ∧ result = tracks ++ concat pages
             ∧ (length pages ≤ fuel)%nat.
Proof.
  revert tracks offset st result.
  induction fuel as [|fuel IH]; intros tracks offset st result.
  - simpl. unfold ret. split; [done|].
    intros (pages & Hp & _ & Hlen). destruct Hp; simpl in Hlen; lia.
  - simpl. unfold bind at 1. rewrite fetch_page_eq.
    destruct (sp_playlist_tracks pid limit offset (fst st)) as [[page|e] w'] eqn:Hsp.
    + destruct (Nat.ltb_spec (length page) limit) as [Hlt|Hge].
      * unfold ret. split.
        -- intros [= <- <-]. exists [page]. split_and!.
           ++ by apply pagewise_last.
           ++ simpl. by rewrite app_nil_r.
           ++ simpl. lia.
        -- intros (pages & Hp & -> & _).
           inversion Hp as [? ? ? ? Hsp' Hlt'|? ? ? ? ? ? Hsp' Hge' Hp'];
             subst; rewrite Hsp in Hsp'; simplify_eq; [|lia].
           simpl. by rewrite app_nil_r.
      * rewrite IH. split.
        -- intros (pages & Hp & -> & Hlen). exists (page :: pages). split_and!.
           ++ by eapply pagewise_more.
           ++ simpl. by rewrite app_assoc.
           ++ simpl. lia.
        -- intros (pages & Hp & -> & Hlen).
           inversion Hp as [? ? ? ? Hsp' Hlt'|? ? ? ? ? ? Hsp' Hge' Hp'];
             subst; rewrite Hsp in Hsp'; simplify_eq; [lia|].
           eexists. split_and!; [done| |simpl in Hlen; lia].
           simpl. by rewrite app_assoc.
    + split; [done|]. intros (pages & Hp & _).
      inversion Hp; subst; rewrite Hsp in *; simplify_eq.
Qed.

Lemma div_limit_bounds (n : nat) :
  (n / limit * limit ≤ n ∧ n < S (n / limit) * limit)%nat.
Proof.
  unfold limit.
  pose proof (Nat.div_mod_eq n 100). pose proof (Nat.mod_upper_bound n 100).
  lia.
Qed.

(** With a catalog that serves the slices of [items], the loop entered at
    the [j]-th page with the first [j] pages collected returns [items]. *)
Lemma get_playlist_tracks_from_serves pid items fuel j st :
  serves pid items →
  (j ≤ length items / limit)%nat →
  (length items / limit - j < fuel)%nat →
  ∃ st',
    get_playlist_tracks_from fuel pid (take (j * limit) items) (j * limit) st
    = (Ok (Some items), st')
    ∧ pagewise pid (j * limit) st
        (page_at items <$> seq j (S (length items / limit) - j)) st'
    ∧ snd st' = snd st ++
        ((λ j, EvPage pid limit (j * limit))
           <$> seq j (S (length items / limit) - j)).
Proof.
  intros Hserves. revert j st.
  pose proof (div_limit_bounds (length items)) as [Hlo Hhi].
  generalize dependent (length items / limit)%nat. intros n Hlo Hhi.
  induction fuel as [|fuel IH]; intros j st Hj Hfuel; [lia|].
  cbn [get_playlist_tracks_from]. unfold bind at 1. rewrite fetch_page_eq.
  pose proof (Hserves limit (j * limit)%nat (fst st)) as Hpage.
  destruct (sp_playlist_tracks pid limit (j * limit) (fst st))
    as [r w'] eqn:Hsp.
  simpl in Hpage. subst r. fold (page_at items j).
  assert (Hlen : length (page_at items j)
                 = Nat.min limit (length items - j * limit)).
  { unfold page_at. by rewrite length_take, length_drop. }
  assert (Hcat : take (j * limit) items ++ page_at items j
                 = take (S j * limit) items).
  { unfold page_at. rewrite <- (take_drop (j * limit) (take (S j * limit) items)).
    rewrite take_take, skipn_firstn_comm. f_equal.
    - f_equal. lia.
    - f_equal. lia. }
  destruct (Nat.ltb_spec (length (page_at items j)) limit) as [Hlt|Hge].
  - assert (j = n) as Hjn by (unfold limit in *; nia).
    replace (S n - j)%nat with 1%nat by lia.
    eexists. split_and!.
    + unfold ret. rewrite Hcat, take_ge; [done|]. unfold limit in *. nia.
    + by apply pagewise_last.
    + done.
  - assert (S j ≤ n)%nat as Hj' by (unfold limit in *; nia).
    destruct (IH (S j) (w', snd st ++ [EvPage pid limit (j * limit)]))
      as (st' & Hrun & Hpw & Hlog); [done|lia|].
    replace (S n - j)%nat with (S (S n - S j)) by lia.
    exists st'. split_and!.
    + rewrite Hcat. replace (j * limit + limit)%nat with (S j * limit)%nat by lia.
      done.
    + cbn [seq fmap list_fmap]. eapply pagewise_more; [done|done|].
      replace (j * limit + limit)%nat with (S j * limit)%nat by lia. done.
    + rewrite Hlog. cbn [seq fmap list_fmap fst snd]. by rewrite <- app_assoc.
Qed.

Lemma concat_pages_from (items : list item) (j k : nat) :
  concat (page_at items <$> seq j k) = take (k * limit) (drop (j * limit) items).
Proof.
  revert j. induction k as [|k IH]; intros j; [done|].
  cbn [seq fmap list_fmap concat]. rewrite IH. unfold page_at.
  symmetry.
  rewrite <- (take_drop limit (take (S k * limit) (drop (j * limit) items))).
  rewrite take_take, skipn_firstn_comm, drop_drop.
  repeat (f_equal; try lia).
Qed.

(** C4: with a catalog that holds [items] for the playlist,
    [get_playlist_tracks] asks for pages of 100 from offset 0, advances by
    100 after each full page, stops at the first short page and returns the
    pages joined in order, which is [items]; for 250 items these are three
    pages of 100, 100 and 50.  The first part holds for any catalog: the
    function returns a list exactly when the retrieval was page-wise, and
    the list is the pages joined in the order received. *)
Theorem get_playlist_tracks_pages
    (pid : str) (items : list item) (fuel : nat) (st : world * list event) :
  serves pid items →
  (length items / limit < fuel)%nat →
  (∀ fuel0 st0 result st1,
     get_playlist_tracks fuel0 pid st0 = (Ok (Some result), st1)
     ↔ ∃ pages, pagewise pid 0 st0 pages st1
                ∧ result = concat pages ∧ (length pages ≤ fuel0)%nat)
  ∧ ∃ st',
      get_playlist_tracks fuel pid st = (Ok (Some items), st')
      ∧ pagewise pid 0 st (pages_of items) st'
      ∧ snd st' = snd st ++ requests_of pid items
      ∧ concat (pages_of items) = items
      ∧ (length items = 250%nat →
           length <$> pages_of items = [100; 100; 50]%nat
           ∧ requests_of pid items
             = [EvPage pid 100 0; EvPage pid 100 100; EvPage pid 100 200]).
Proof.
  intros Hserves Hfuel. split.
  { intros fuel0 st0 result st1. unfold get_playlist_tracks.
    by rewrite get_playlist_tracks_from_pagewise. }
  destruct (get_playlist_tracks_from_serves pid items fuel 0 st)
    as (st' & Hrun & Hpw & Hlog); [done|lia|lia|].
  rewrite Nat.sub_0_r in *.
  exists st'. split_and!; try done.
  - unfold pages_of. rewrite concat_pages_from, drop_0.
    apply take_ge. pose proof (div_limit_bounds (length items)). lia.
  - intros H250. unfold pages_of, requests_of. rewrite H250.
    change (250 / limit)%nat with 2%nat. split; [|done].
    simpl. unfold page_at. rewrite !length_take, !length_drop, H250. done.
Qed.

End Pagination.

(** The listing of the 250 tracks of [sc250] in the simulated world. *)
Lemma get_playlist_tracks_pages_witness :
  serves (E := sim sc250) (py "p1") (sc_tracks sc250)
  ∧ (length (sc_tracks sc250) / limit < 3)%nat
  ∧ ∃ st', get_playlist_tracks (E := sim sc250) 3 (py "p1") ([], [])
           = (Ok (Some (sc_tracks sc250)), st')
           ∧ snd st' = [EvPage (py "p1") 100 0; EvPage (py "p1") 100 100;
                        EvPage (py "p1") 100 200]
           ∧ length <$> pages_of (sc_tracks sc250) = [100; 100; 50]%nat.
Proof.
  assert (Hs : serves (E := sim sc250) (py "p1") (sc_tracks sc250))
    by (intros ? ? ?; reflexivity).
  assert (Hf : (length (sc_tracks sc250) / limit < 3)%nat)
    by (vm_compute; lia).
  split; [exact Hs|]. split; [exact Hf|].
  destruct (get_playlist_tracks_pages (E := sim sc250) (py "p1")
              (sc_tracks sc250) 3 ([], []) Hs Hf)
    as (_ & st' & Hrun & _ & Hlog & _ & H250).
  destruct (H250 eq_refl) as [Hsizes Hreq].
  exists st'. split; [exact Hrun|]. split; [|exact Hsizes].
  rewrite Hlog, Hreq. reflexivity.
Defined.

(** ** The worker *)

Section Worker.
Context {E : External}.

Lemma try_candidates_attempts folder name ids st :
  ∃ b st', try_candidates folder name ids st = (Ok b, st')
           ∧ attempts (outtmpl_of folder name) ids st b st'.
Proof.
  revert st. induction ids as [|video_id rest IH]; intros st.
  - exists false, st. split; [done | constructor].
  - cbn [try_candidates]. unfold bind at 1, try_except, bind at 1.
    rewrite call_eq.
    destruct (ydl_download (outtmpl_of folder name) (video_url_of video_id)
                (fst st)) as [[[]|e] w'] eqn:Hdl; cbn [fst snd].
    + eexists true, _. split; [done|]. by apply attempts_hit.
    + destruct (IH (w', snd st ++ [EvDownload (outtmpl_of folder name)
                                               (video_url_of video_id)]))
        as (b & st' & Hrun & Hatt).
      exists b, st'. split; [by rewrite <- Hrun|]. by eapply attempts_miss.
Qed.

Lemma attempts_deterministic tmpl ids st b1 st1 b2 st2 :
  attempts tmpl ids st b1 st1 → attempts tmpl ids st b2 st2 →
  b1 = b2 ∧ st1 = st2.
Proof.
  intros H1. revert b2 st2.
  induction H1 as [st|id rest st w' Hdl|id rest st e w' b st' Hdl _ IH];
    intros b2 st2 H2; inversion H2; subst; try done;
    rewrite Hdl in *; simplify_eq; by auto.
Qed.

(** The downloads attempted are those of a prefix of the candidates, in
    their order; the outcome is [true] when the last of them returned
    normally, and [false] only when every candidate was attempted. *)
Lemma attempts_prefix tmpl ids st b st' :
  attempts tmpl ids st b st' →
  ∃ k, (k ≤ length ids)%nat
       ∧ snd st' = snd st ++ ((λ v, EvDownload tmpl (video_url_of v)) <$> take k ids)
       ∧ (b = false → k = length ids)
       ∧ (b = true → (1 ≤ k)%nat).
Proof.
  induction 1 as [st|id rest st w' Hdl
                  |id rest st e w' b st' Hdl _ (k & Hk & Hlog & Hf & Ht)].
  - exists 0%nat. by rewrite app_nil_r.
  - exists 1%nat. cbn. split_and!; [lia|by rewrite take_0|done|lia].
  - exists (S k). cbn in *. split_and!; [lia| |intros ?; f_equal; auto|lia].
    by rewrite Hlog, <- app_assoc.
Qed.

Lemma download_track_body_fetches track_info folder st :
  (∃ b st', download_track_body track_info folder st = (Ok b, st')
            ∧ fetches track_info folder st b st')
  ∨ (∃ e t, download_track_body track_info folder st = (Raise e, st)
            ∧ playable track_info t ∧ track_artists t = []).
Proof.
  unfold download_track_body.
  destruct (item_track track_info) as [t|] eqn:Ht;
    [|left; exists false, st; split; [done | by apply fetches_gone]].
  case_bool_decide as Hty;
    [left; exists false, st; split; [done | by eapply fetches_not_track]|].
  assert (playable track_info t) as Hplay.
  { split; [done|]. by destruct (decide (track_type t = py "track")). }
  unfold first_artist_name.
  destruct (track_artists t) as [|a others] eqn:Hart.
  { right. by exists (IndexError (py "list index out of range")), t. }
  left. unfold bind at 1, ret at 1, bind at 1, os_path_exists.
  destruct (path_exists _ (fst st)) eqn:Hex.
  { exists true, st. split; [done|]. by eapply fetches_present. }
  unfold bind at 1, try_except, bind at 1. rewrite call_eq.
  destruct (urlopen_read (search_url (track_name t) (artist_name a)) (fst st))
    as [[html|e] w'] eqn:Hurl; cbn [fst snd].
  - unfold ret at 1.
    destruct (findall_watch 0 html) as [|v vs] eqn:Hids.
    + eexists false, _. split; [done|]. by eapply fetches_no_candidate.
    + destruct (try_candidates_attempts folder
                  (sanitized_name_of (artist_name a) (track_name t))
                  (take 3 (v :: vs))
                  (w', snd st ++ [EvSearch (search_url (track_name t)
                                                       (artist_name a))]))
        as (b & st' & Hrun & Hatt).
      exists b, st'. split; [done|].
      eapply fetches_candidates; try done; by rewrite Hids.
  - eexists false, _. split; [done|]. by eapply fetches_search_fails.
Qed.

Lemma download_track_fetches track_info folder st :
  ∃ b st', download_track track_info folder st = (Ok b, st')
           ∧ fetches track_info folder st b st'.
Proof.
  unfold download_track, try_except.
  destruct (download_track_body_fetches track_info folder st)
    as [(b & st' & -> & H)|(e & t & -> & Hp & Ha)].
  - by exists b, st'.
  - exists false, st. split; [done|]. by eapply fetches_no_artist.
Qed.

Lemma fetches_deterministic track_info folder st b1 st1 b2 st2 :
  fetches track_info folder st b1 st1 → fetches track_info folder st b2 st2 →
  b1 = b2 ∧ st1 = st2.
Proof.
  intros H1 H2.
  destruct H1; destruct H2;
    repeat match goal with
           | H : playable _ _ |- _ => destruct H
           end;
    simplify_eq; try done;
    repeat match goal with
           | H : ?x = _, H' : ?x = _ |- _ => rewrite H in H'; simplify_eq
           end; try done.
  by eapply attempts_deterministic.
Qed.

(** A track whose target file is already there: [true], and neither the
    world nor the log changes. *)
Lemma download_track_present track_info folder st t a others :
  playable track_info t → track_artists t = a :: others →
  path_exists (final_file_of folder
                 (sanitized_name_of (artist_name a) (track_name t)))
              (fst st) = true →
  download_track track_info folder st = (Ok true, st).
Proof.
  intros Hp Ha Hex.
  destruct (download_track_fetches track_info folder st) as (b & st' & Hrun & Hf).
  rewrite Hrun.
  destruct (fetches_deterministic _ _ _ _ _ _ _ Hf
              (fetches_present _ _ _ _ _ _ Hp Ha Hex)) as [-> ->].
  done.
Qed.

End Worker.

(** ** Calls from the presentation layer *)

Section Calls.
Context {E : External}.

(** C10: [stop_download] reports success in every state; it clears
    [is_downloading] and leaves the progress record, the download path, the
    threads and the world as they are; with the flag already clear the
    state is the same after the call. *)
Theorem stop_download_frame (s : system) :
  fst (stop_download s) = ReplySuccess (py "Download stopped")
  ∧ is_downloading (sys_api (snd (stop_download s))) = false
  ∧ download_progress (sys_api (snd (stop_download s)))
    = download_progress (sys_api s)
  ∧ (∀ k, field k (snd (stop_download s)) = field k s)
  ∧ download_path (sys_api (snd (stop_download s))) = download_path (sys_api s)
  ∧ sys_threads (snd (stop_download s)) = sys_threads s
  ∧ sys_state (snd (stop_download s)) = sys_state s
  ∧ (is_downloading (sys_api s) = false → snd (stop_download s) = s).
Proof.
  split_and!; try done.
  destruct s as [[flag progress path] threads st]. simpl. by intros ->.
Qed.

End Calls.


(** After a run on an input that is no playlist URL the flag stays set
    although no background unit is left, and [start_download] refuses. *)
Example start_download_after_bad_url :
  quiescent bad_url_run
  ∧ status bad_url_run = Some (VStr (py "error"))
  ∧ field "error" bad_url_run = Some (VStr (py "Invalid playlist URL"))
  ∧ is_downloading (sys_api bad_url_run) = true
  ∧ start_download good_url bad_url_run
    = (ReplyError (py "Download already in progress"), bad_url_run).
Proof.
  split_and!; try (vm_compute; reflexivity).
  vm_compute. repeat constructor.
Qed.

(** C1, at a playlist whose second slot is gone: the run ends with status
    [error] at that slot and never reaches the third track, although the
    worker, had it been called on the slot, returns [false]. *)
Theorem gone_slot_ends_run_in_error :
  status mix_run = Some (VStr (py "error"))
  ∧ field "error" mix_run
    = Some (VStr (py "'NoneType' object is not subscriptable"))
  ∧ field "current" mix_run = Some (VInt 2)
  ∧ field "total" mix_run = Some (VInt 3)
  ∧ field "successful" mix_run = None
  ∧ sys_threads mix_run = [WDone]
  ∧ filter (λ ev, is_search ev = true) (snd (sys_state mix_run))
    = [EvSearch (search_url (E := sim sc_mix) (py "B") (py "A"))]
  ∧ download_track (E := sim sc_mix) gone (py "/music/Mix") (sys_state mix_run)
    = (Ok false, sys_state mix_run).
Proof. split_and!; vm_compute; reflexivity. Qed.

(** ** One step of a worker *)

Section Steps.
Context {E : External}.

(** The stage a step leads to, and what it leaves in the status field. *)
Lemma worker_step_stage wk a st wk' a' st' :
  worker_step wk a st = (wk', a', st') →
  (stage wk' = stage wk ∧ stage wk ≠ 0%nat
   ∧ download_progress a' !! "status" = download_progress a !! "status")
  ∨ (stage wk = 0%nat ∧ stage wk' = 1%nat
     ∧ named (download_progress a' !! "status") "starting")
  ∨ (stage wk = 1%nat ∧ stage wk' = 2%nat
     ∧ named (download_progress a' !! "status") "downloading")
  ∨ (stage wk = 1%nat ∧ stage wk' = 3%nat
     ∧ named (download_progress a' !! "status") "error")
  ∨ (stage wk = 2%nat ∧ stage wk' = 3%nat
     ∧ ∃ final, final ∈ terminal_statuses
                ∧ download_progress a' !! "status" = Some (VStr final)).
Proof.
  unfold named, terminal_statuses.
  destruct wk; cbn [worker_step stage]; intros H;
    repeat case_match; simplify_eq; cbn [stage];
    unfold on_exception, progress_put, set_progress, set_is_downloading;
    cbn [download_progress];
    try (left; split_and!; [done|done|by simplify_map_eq]);
    try (right; left; split_and!; [done|done|by simplify_map_eq]);
    try (right; right; left; split_and!; [done|done|by simplify_map_eq]);
    try (right; right; right; left; split_and!; [done|done|by simplify_map_eq]).
  all: right; right; right; right; split_and!; [done|done|];
    eexists; (split; [|by simplify_map_eq]); set_solver.
Qed.

Lemma stage_done wk : stage wk = 3%nat → wk = WDone.
Proof. by destruct wk. Qed.

Lemma worker_step_done a st : worker_step WDone a st = (WDone, a, st).
Proof. done. Qed.

(** A step keeps the counters of the progress record in agreement. *)
Lemma worker_step_counted wk a st wk' a' st' :
  worker_step wk a st = (wk', a', st') → counted wk a → counted wk' a'.
Proof.
  unfold counted.
  destruct wk; cbn [worker_step]; intros H [Hc Ht];
    repeat case_match; simplify_eq; cbn [stage begun remaining] in *;
    unfold on_exception, progress_put, set_progress, set_is_downloading;
    cbn [download_progress];
    (split; [intros Hs|intros Hs]); try lia; try done;
    simplify_map_eq; try done;
    try (rewrite Hc by lia); try (rewrite Ht by lia);
    try (do 3 f_equal; cbn [length]; lia).
Qed.

(** A step does not take a worker back, unless it ends it. *)
Lemma worker_step_position wk a st wk' a' st' :
  worker_step wk a st = (wk', a', st') →
  wk' = WDone ∨ (position wk ≤ position wk')%nat.
Proof.
  destruct wk; cbn [worker_step]; intros H;
    repeat case_match; simplify_eq; cbn [position]; auto; right; lia.
Qed.

(** The check at the head of the loop with the flag clear. *)
Lemma worker_step_cancel folder i track_info rest succ a st :
  is_downloading a = false →
  worker_step (WLoop folder i (track_info :: rest) succ) a st
  = (WDone, progress_put "status" (VStr (py "cancelled")) a, st).
Proof. cbn [worker_step]. by intros ->. Qed.

(** The call of the worker does not look at the flag. *)
Lemma worker_step_body folder i track_info rest succ a st :
  ∃ b st',
    download_track track_info folder st = (Ok b, st')
    ∧ worker_step (WBody folder i track_info rest succ) a st
      = (WLoop folder (i + 1) rest (if b then succ + 1 else succ)%nat, a, st').
Proof.
  destruct (download_track_fetches track_info folder st) as (b & st' & Hrun & _).
  exists b, st'. split; [done|]. cbn [worker_step]. rewrite Hrun.
  by destruct b.
Qed.

End Steps.

(** ** Threads and schedules *)

Section Schedules.
Context {E : External}.

Lemma run_thread_none t s :
  sys_threads s !! t = None → run_thread t s = s.
Proof. unfold run_thread. by intros ->. Qed.

Lemma run_thread_some t s wk wk' a' st' :
  sys_threads s !! t = Some wk →
  worker_step wk (sys_api s) (sys_state s) = (wk', a', st') →
  run_thread t s = {| sys_api := a';
                      sys_threads := <[t := wk']> (sys_threads s);
                      sys_state := st' |}.
Proof. unfold run_thread. by intros -> ->. Qed.

Lemma lookup_after_run t s wk wk' a' st' :
  sys_threads s !! t = Some wk →
  worker_step wk (sys_api s) (sys_state s) = (wk', a', st') →
  sys_threads (run_thread t s) !! t = Some wk'.
Proof.
  intros Ht Hstep. rewrite (run_thread_some _ _ _ _ _ _ Ht Hstep).
  cbn [sys_threads]. apply list_lookup_insert_eq.
  by apply lookup_lt_Some in Ht.
Qed.

Lemma exec_all_app sched1 sched2 s :
  exec_all (sched1 ++ sched2) s = exec_all sched2 (exec_all sched1 s).
Proof. revert s. induction sched1 as [|act sched1 IH]; intros s; [done|]. apply IH. Qed.

Lemma states_along_app sched1 sched2 s :
  states_along (sched1 ++ sched2) s
  = states_along sched1 s ++ states_along sched2 (exec_all sched1 s).
Proof.
  revert s. induction sched1 as [|act sched1 IH]; intros s; [done|].
  cbn. by rewrite IH.
Qed.

Lemma solo_cons t act sched :
  solo t (act :: sched) ↔ (act = Stop ∨ act = Run t) ∧ solo t sched.
Proof. unfold solo. by rewrite Forall_cons. Qed.

Lemma lifecycle_stay before t p s seen :
  in_phase before t p s → lifecycle before p seen →
  lifecycle before p (status s :: seen).
Proof.
  destruct p; cbn [lifecycle in_phase]; intros Hp Hl.
  - left. by destruct Hp.
  - left. by destruct Hp.
  - left. by destruct Hp.
  - by destruct Hp as (_ & ? & _).
Qed.

Lemma in_phase_stage before t p s wk :
  in_phase before t p s → sys_threads s !! t = Some wk →
  stage wk = match p with
             | Fresh => 0 | Starting => 1 | Downloading => 2 | Ended _ => 3
             end%nat.
Proof.
  destruct p; cbn [in_phase].
  - intros [_ H] Ht. by apply H.
  - intros [_ (wk0 & ? & ?)] Ht. by simplify_eq.
  - intros [_ (wk0 & ? & ?)] Ht. by simplify_eq.
  - intros (_ & _ & ?) Ht. by simplify_eq.
Qed.

(** The status field over a run observed in isolation. *)
Lemma solo_lifecycle before t p sched s :
  in_phase before t p s → solo t sched →
  lifecycle before p (status <$> states_along sched s).
Proof.
  revert p s. induction sched as [|act sched IH]; intros p s Hp Hsolo; [done|].
  apply solo_cons in Hsolo as [Hact Hsolo].
  cbn [states_along fmap list_fmap].
  assert (Hstay : in_phase before t p (exec act s) →
            lifecycle before p
              (status (exec act s) :: (status <$> states_along sched (exec act s)))).
  { intros Hp'. eapply lifecycle_stay; [done|]. by apply IH. }
  destruct Hact as [->| ->];
    [apply Hstay; destruct p; exact Hp|].
  cbn [exec] in *.
  destruct (sys_threads s !! t) as [wk|] eqn:Ht;
    [|rewrite run_thread_none in * by done; by apply Hstay].
  destruct (worker_step wk (sys_api s) (sys_state s)) as [[wk' a'] st'] eqn:Hstep.
  pose proof (lookup_after_run _ _ _ _ _ _ Ht Hstep) as Ht'.
  assert (Hst' : status (run_thread t s) = download_progress a' !! "status").
  { by rewrite (run_thread_some _ _ _ _ _ _ Ht Hstep). }
  pose proof (in_phase_stage _ _ _ _ _ Hp Ht) as Hstage.
  pose proof (worker_step_stage _ _ _ _ _ _ Hstep)
    as [(Hs & Hne & Hsame)|[(Hs & Hs' & Hn)|[(Hs & Hs' & Hn)|[(Hs & Hs' & Hn)
        |(Hs & Hs' & final & Hfin & Hn)]]]];
    rewrite <- Hst' in *.
  - (* same stage, same status *)
    apply Hstay. fold (status s) in Hsame.
    destruct p; cbn [in_phase] in *; try lia.
    + destruct Hp as [Hp _]. split; [by rewrite Hsame|].
      exists wk'. split; [done|lia].
    + destruct Hp as [Hp _]. split; [by rewrite Hsame|].
      exists wk'. split; [done|lia].
    + destruct Hp as (Hfin & Hp & _).
      rewrite Hstage in Hs. apply stage_done in Hs as ->.
      split_and!; [done|by rewrite Hsame|done].
  - (* not begun to starting *)
    destruct p; try lia. cbn [lifecycle].
    right. split; [done|]. apply IH; [|done]. split; [done|]. by exists wk'.
  - (* starting to downloading *)
    destruct p; try lia. cbn [lifecycle].
    right. left. split; [done|]. apply IH; [|done]. split; [done|]. by exists wk'.
  - (* starting to error *)
    apply stage_done in Hs' as ->.
    destruct p; try lia. cbn [lifecycle].
    right. right. split; [done|]. apply IH; [|done].
    split_and!; [by_compute|done|done].
  - (* downloading to a terminal status *)
    apply stage_done in Hs' as ->.
    destruct p; try lia. cbn [lifecycle].
    right. exists final. split_and!; [done|done|]. apply IH; [|done].
    by split_and!.
Qed.

End Schedules.

(** ** The status field *)

Section Status.
Context {E : External}.

Lemma statuses_distinct :
  NoDup statuses ∧ terminal_statuses ⊆ statuses ∧ py "idle" ∉ terminal_statuses.
Proof. split_and!; by_compute. Qed.

(** What a step of any thread leaves in the status field: the value it
    found, or one of the five values a run writes. *)
Lemma run_thread_status t s :
  status (run_thread t s) = status s
  ∨ ∃ v, status (run_thread t s) = Some (VStr v)
         ∧ v ∈ statuses ∧ v ≠ py "idle".
Proof.
  destruct (sys_threads s !! t) as [wk|] eqn:Ht;
    [|left; by rewrite run_thread_none].
  destruct (worker_step wk (sys_api s) (sys_state s)) as [[wk' a'] st'] eqn:Hstep.
  rewrite (run_thread_some _ _ _ _ _ _ Ht Hstep). unfold status, field.
  cbn [sys_api].
  pose proof (worker_step_stage _ _ _ _ _ _ Hstep)
    as [(_ & _ & Hsame)|[(_ & _ & Hn)|[(_ & _ & Hn)|[(_ & _ & Hn)
        |(_ & _ & final & Hfin & Hn)]]]].
  - by left.
  - right. eexists. split; [exact Hn|]. split; by_compute.
  - right. eexists. split; [exact Hn|]. split; by_compute.
  - right. eexists. split; [exact Hn|]. split; by_compute.
  - right. exists final. split; [done|].
    pose proof statuses_distinct as (_ & Hsub & Hidle).
    split; [by apply Hsub|]. by intros ->.
Qed.

(** The status field holds one of the six values, whatever is scheduled. *)
Lemma status_in_statuses home w sched :
  ∃ v, status (exec_all sched (init_system home w)) = Some (VStr v)
       ∧ v ∈ statuses.
Proof.
  assert (H0 : ∃ v, status (init_system home w) = Some (VStr v) ∧ v ∈ statuses).
  { exists (py "idle"). split; [done|by_compute]. }
  revert H0. generalize (init_system home w).
  induction sched as [|act sched IH]; intros s Hs; [done|].
  cbn [exec_all]. apply IH.
  destruct act as [url| |t]; cbn [exec].
  - unfold start_download. by case_match.
  - done.
  - destruct (run_thread_status t s) as [-> |(v & Hv & Hin & _)]; [done|].
    by exists v.
Qed.

(** While the field reads [idle], no run has begun: every thread there is
    has still to take its first step. *)
Lemma idle_before_any_run home w sched :
  status (exec_all sched (init_system home w)) = Some (VStr (py "idle")) →
  Forall (λ wk, stage wk = 0%nat)
         (sys_threads (exec_all sched (init_system home w))).
Proof.
  assert (H0 : status (init_system home w) = Some (VStr (py "idle")) →
               Forall (λ wk, stage wk = 0%nat) (sys_threads (init_system home w))).
  { intros _. constructor. }
  revert H0. generalize (init_system home w).
  induction sched as [|act sched IH]; intros s Hs; [done|].
  cbn [exec_all]. apply IH.
  destruct act as [url| |t]; cbn [exec].
  - unfold start_download. case_match; [|done]. cbn [snd sys_threads].
    intros Hidle. apply Forall_app. split; [by apply Hs|].
    by repeat constructor.
  - done.
  - intros Hidle.
    destruct (sys_threads s !! t) as [wk|] eqn:Ht;
      [|rewrite run_thread_none in * by done; by apply Hs].
    destruct (worker_step wk (sys_api s) (sys_state s))
      as [[wk' a'] st'] eqn:Hstep.
    rewrite (run_thread_some _ _ _ _ _ _ Ht Hstep) in Hidle |- *.
    unfold status, field in Hidle. cbn [sys_api sys_threads] in *.
    pose proof (worker_step_stage _ _ _ _ _ _ Hstep)
      as [(_ & Hne & Hsame)|[(_ & _ & Hn)|[(_ & _ & Hn)|[(_ & _ & Hn)
          |(_ & _ & final & Hfin & Hn)]]]].
    + rewrite Hsame in Hidle. specialize (Hs Hidle).
      rewrite Forall_lookup in Hs. by specialize (Hs t wk Ht).
    + rewrite Hn in Hidle. by vm_compute in Hidle.
    + rewrite Hn in Hidle. by vm_compute in Hidle.
    + rewrite Hn in Hidle. by vm_compute in Hidle.
    + rewrite Hn in Hidle. simplify_eq.
      pose proof statuses_distinct as (_ & _ & Hidle). done.
Qed.

(** C3, as the code has it.  The status field always holds one of the six
    values and is [idle] at construction.  Over a run observed in
    isolation it keeps the value found until the run writes [starting];
    from [starting] it goes either to [error] or to [downloading], and from
    [downloading] to exactly one of [completed], [cancelled], [error],
    which then stays.  No run writes [idle]: once a thread has taken its
    first step the field is never [idle] again. *)
Theorem status_lifecycle :
  (∀ home w sched,
     ∃ v, status (exec_all sched (init_system home w)) = Some (VStr v)
          ∧ v ∈ statuses)
  ∧ (∀ home w, status (init_system home w) = Some (VStr (py "idle")))
  ∧ (∀ s url sched,
       solo (length (sys_threads s)) sched →
       lifecycle (status s) Fresh
         (status <$> states_along sched (exec (Start url) s)))
  ∧ (∀ home w sched t wk,
       sys_threads (exec_all sched (init_system home w)) !! t = Some wk →
       stage wk ≠ 0%nat →
       status (exec_all sched (init_system home w)) ≠ Some (VStr (py "idle"))).
Proof.
  split_and!.
  - apply status_in_statuses.
  - done.
  - intros s url sched Hsolo. eapply solo_lifecycle; [|done].
    cbn [in_phase exec]. unfold start_download.
    case_match; cbn [snd].
    + split; [done|]. cbn [sys_threads]. intros wk Hwk.
      rewrite lookup_app_r in Hwk by lia. rewrite Nat.sub_diag in Hwk. simpl in Hwk. by simplify_eq.
    + split; [done|]. intros wk Hwk.
      apply lookup_lt_Some in Hwk. lia.
  - intros home w sched t wk Ht Hstage Hidle.
    pose proof (idle_before_any_run _ _ _ Hidle) as Hall.
    rewrite Forall_lookup in Hall. by specialize (Hall t wk Ht).
Qed.

End Status.

(** ** Cancellation *)

Section Cancellation.
Context {E : External}.

Lemma solo_done t sched s :
  solo t sched → sys_threads s !! t = Some WDone →
  sys_threads (exec_all sched s) !! t = Some WDone.
Proof.
  revert s. induction sched as [|act sched IH]; intros s Hsolo Ht; [done|].
  apply solo_cons in Hsolo as [[->| ->] Hsolo]; cbn [exec_all exec];
    apply IH; try done.
  eapply lookup_after_run; [done|]. apply worker_step_done.
Qed.

(** Over a run observed in isolation the counters stay in agreement. *)
Lemma solo_counted t sched s :
  solo t sched →
  (∀ wk, sys_threads s !! t = Some wk → counted wk (sys_api s)) →
  ∀ wk, sys_threads (exec_all sched s) !! t = Some wk →
        counted wk (sys_api (exec_all sched s)).
Proof.
  revert s. induction sched as [|act sched IH]; intros s Hsolo Hc; [done|].
  apply solo_cons in Hsolo as [[->| ->] Hsolo]; cbn [exec_all exec];
    apply IH; try done.
  intros wk' Hwk'.
  destruct (sys_threads s !! t) as [wk|] eqn:Ht;
    [|rewrite run_thread_none in * by done; simplify_eq].
  destruct (worker_step wk (sys_api s) (sys_state s)) as [[wk1 a'] st'] eqn:Hstep.
  rewrite (lookup_after_run _ _ _ _ _ _ Ht Hstep) in Hwk'. simplify_eq.
  rewrite (run_thread_some _ _ _ _ _ _ Ht Hstep). cbn [sys_api].
  eapply worker_step_counted; [done|]. by apply Hc.
Qed.

(** A worker that is still live at the end was nowhere further before. *)
Lemma solo_position_start t sched s wk wk_end :
  solo t sched → sys_threads s !! t = Some wk →
  sys_threads (exec_all sched s) !! t = Some wk_end → wk_end ≠ WDone →
  (position wk ≤ position wk_end)%nat.
Proof.
  revert s wk. induction sched as [|act sched IH]; intros s wk Hsolo Ht Hend Hlive.
  { cbn in Hend. by simplify_eq. }
  apply solo_cons in Hsolo as [[->| ->] Hsolo]; cbn [exec_all exec] in Hend.
  - exact (IH (exec Stop s) wk Hsolo Ht Hend Hlive).
  - destruct (worker_step wk (sys_api s) (sys_state s)) as [[wk1 a'] st'] eqn:Hstep.
    pose proof (lookup_after_run _ _ _ _ _ _ Ht Hstep) as Ht1.
    destruct (worker_step_position _ _ _ _ _ _ Hstep) as [-> |Hle].
    + rewrite (solo_done _ _ _ Hsolo Ht1) in Hend. by simplify_eq.
    + etrans; [exact Hle|]. exact (IH _ wk1 Hsolo Ht1 Hend Hlive).
Qed.

Lemma solo_position t sched s wk_end :
  solo t sched →
  sys_threads (exec_all sched s) !! t = Some wk_end → wk_end ≠ WDone →
  ∀ s' wk, s' ∈ states_along sched s → sys_threads s' !! t = Some wk →
           (position wk ≤ position wk_end)%nat.
Proof.
  revert s. induction sched as [|act sched IH]; intros s Hsolo Hend Hlive s' wk Hin Ht.
  { by apply elem_of_nil in Hin. }
  pose proof Hsolo as [_ Hsolo']%solo_cons.
  cbn [states_along exec_all] in *.
  apply elem_of_cons in Hin as [-> |Hin].
  - by eapply solo_position_start.
  - by eapply IH.
Qed.

(** After the stop request the worker waits or has cancelled; it does not
    enter the body of the loop again. *)
Lemma solo_stopped t folder k track_info rest succ s0 sched s :
  solo t sched →
  stopped_at t (WLoop folder k (track_info :: rest) succ) s0 s →
  stopped_at t (WLoop folder k (track_info :: rest) succ) s0 (exec_all sched s)
  ∧ (∀ s', s' ∈ states_along sched s →
           stopped_at t (WLoop folder k (track_info :: rest) succ) s0 s')
  ∧ (Run t ∈ sched → sys_threads (exec_all sched s) !! t = Some WDone).
Proof.
  revert s. induction sched as [|act sched IH]; intros s Hsolo Hs.
  { split_and!; [done|by intros ? ?%elem_of_nil|by intros ?%elem_of_nil]. }
  apply solo_cons in Hsolo as [Hact Hsolo].
  assert (Hnext : stopped_at t (WLoop folder k (track_info :: rest) succ) s0
                             (exec act s)
                  ∧ (act = Run t → sys_threads (exec act s) !! t = Some WDone)).
  { destruct Hs as [Hst [(Ht & Hflag & Hprog)|(Ht & Hprog)]];
      destruct Hact as [->| ->]; cbn [exec].
    - split; [|done]. split; [done|]. left. by split_and!.
    - pose proof (worker_step_cancel folder k track_info rest succ
                    (sys_api s) (sys_state s) Hflag) as Hstep.
      pose proof (lookup_after_run _ _ _ _ _ _ Ht Hstep) as Ht'.
      split; [|done].
      rewrite (run_thread_some _ _ _ _ _ _ Ht Hstep) in Ht' |- *.
      split; [done|]. right. split; [done|].
      cbn [sys_api progress_put set_progress download_progress]. by rewrite Hprog.
    - split; [|done]. split; [done|]. right. by split_and!.
    - pose proof (worker_step_done (sys_api s) (sys_state s)) as Hstep.
      pose proof (lookup_after_run _ _ _ _ _ _ Ht Hstep) as Ht'.
      split; [|done].
      rewrite (run_thread_some _ _ _ _ _ _ Ht Hstep) in Ht' |- *.
      split; [done|]. right. by split_and!. }
  destruct Hnext as [Hnext Hrun].
  destruct (IH _ Hsolo Hnext) as (Hend & Hall & Hran).
  cbn [exec_all states_along]. split_and!.
  - done.
  - intros s' [-> |Hin]%elem_of_cons; [done|by apply Hall].
  - intros [<- |Hin]%elem_of_cons; [|by apply Hran].
    apply solo_done; [done|by apply Hrun].
Qed.

(** C2: a run started by [start_download] and observed in isolation, in
    which the stop request arrives when the worker is at the head of the
    loop with [k] tracks begun and at least one ahead, ends with status
    [cancelled] and current index [k]; the threads' world and log are those
    of the moment of the request, and at no time, before or after, is the
    worker about to call [download_track] on a track of index [k] or
    beyond.  A stop request that arrives while a track is in flight does
    not change what the call for that track does: the step commutes with
    the request, and the worker reaches the next check. *)
Theorem stop_at_track_boundary
    (s0 : system) (url : str) (pre post : list action)
    (folder : str) (k : nat) (rest : list item) (succ : nat) :
  let t := length (sys_threads s0) in
  let s1 := exec_all (Start url :: pre) s0 in
  let s2 := exec_all (Stop :: post) s1 in
  solo t pre → solo t post → Run t ∈ post →
  sys_threads s1 !! t = Some (WLoop folder k rest succ) →
  rest ≠ [] →
  status s2 = Some (VStr (py "cancelled"))
  ∧ field "current" s2 = Some (VInt (Z.of_nat k))
  ∧ field "total" s2 = Some (VInt (Z.of_nat (k + length rest)))
  ∧ sys_threads s2 !! t = Some WDone
  ∧ sys_state s2 = sys_state s1
  ∧ (∀ s f i ti r sc,
       s ∈ states_along (Start url :: pre ++ Stop :: post) s0 →
       sys_threads s !! t = Some (WBody f i ti r sc) → (i < k)%nat)
  ∧ (∀ s t' f i ti r sc,
       sys_threads s !! t' = Some (WBody f i ti r sc) →
       exec (Run t') (exec Stop s) = exec Stop (exec (Run t') s)
       ∧ ∃ sc', sys_threads (exec (Run t') (exec Stop s)) !! t'
                = Some (WLoop f (i + 1) r sc')).
Proof.
  intros t s1 s2 Hpre Hpost Hrun Hloop Hrest.
  destruct rest as [|track_info rest]; [done|]. clear Hrest.
  (* the counters at the moment of the request *)
  assert (Hcount : counted (WLoop folder k (track_info :: rest) succ) (sys_api s1)).
  { subst s1. cbn [exec_all] in *.
    eapply (solo_counted t pre (exec (Start url) s0)); [done| |done].
    intros wk Hwk. cbn [exec] in Hwk. unfold start_download in Hwk.
    case_match; cbn [snd sys_threads] in Hwk.
    - rewrite lookup_app_r in Hwk by (subst t; lia).
      subst t. rewrite Nat.sub_diag in Hwk. simpl in Hwk. simplify_eq.
      split; cbn [stage]; lia.
    - apply lookup_lt_Some in Hwk. subst t. lia. }
  destruct Hcount as [Hcur Htot]. cbn [stage begun remaining] in Hcur, Htot.
  specialize (Hcur (or_intror eq_refl)). specialize (Htot eq_refl).
  (* from the request on *)
  assert (Hstop : stopped_at t (WLoop folder k (track_info :: rest) succ) s1
                             (exec Stop s1)).
  { split; [done|]. left. by split_and!. }
  destruct (solo_stopped _ _ _ _ _ _ _ _ _ Hpost Hstop) as (Hend & Hall & Hran).
  specialize (Hran Hrun).
  change (exec_all post (exec Stop s1)) with s2 in Hend, Hran.
  destruct Hend as [Hst [(Ht & _)|(_ & Hprog)]]; [by simplify_eq|].
  split_and!.
  - unfold status, field. rewrite Hprog. by simplify_map_eq.
  - unfold field. rewrite Hprog. by simplify_map_eq.
  - unfold field. rewrite Hprog. by simplify_map_eq.
  - done.
  - done.
  - intros s f i ti r sc Hin Hbody.
    change (Start url :: pre ++ Stop :: post)
      with ([Start url] ++ pre ++ [Stop] ++ post) in Hin.
    rewrite !states_along_app in Hin.
    apply elem_of_app in Hin as [Hin|Hin];
      [|apply elem_of_app in Hin as [Hin|Hin];
        [|apply elem_of_app in Hin as [Hin|Hin]]].
    + cbn in Hin. apply list_elem_of_singleton in Hin as ->.
      unfold start_download in Hbody.
      case_match; cbn [snd sys_threads] in Hbody.
      * rewrite lookup_app_r in Hbody by (subst t; lia).
        subst t. rewrite Nat.sub_diag in Hbody. by simpl in Hbody.
      * apply lookup_lt_Some in Hbody. subst t. lia.
    + assert (Hle : (position (WBody f i ti r sc)
                     ≤ position (WLoop folder k (track_info :: rest) succ))%nat).
      { eapply (solo_position t pre (exec_all [Start url] s0)); try done. }
      cbn [position] in Hle. lia.
    + change (s ∈ [exec Stop s1]) in Hin.
      apply list_elem_of_singleton in Hin as ->.
      change (sys_threads s1 !! t = Some (WBody f i ti r sc)) in Hbody.
      rewrite Hloop in Hbody. by simplify_eq.
    + change (s ∈ states_along post (exec Stop s1)) in Hin.
      destruct (Hall s Hin) as [_ [(Ht & _)|(Ht & _)]]; by simplify_eq.
  - intros s t' f i ti r sc Ht'.
    destruct (worker_step_body f i ti r sc (sys_api s) (sys_state s))
      as (b & st' & Hdl & Hstep).
    destruct (worker_step_body f i ti r sc
                (set_is_downloading false (sys_api s)) (sys_state s))
      as (b' & st'' & Hdl' & Hstep').
    rewrite Hdl in Hdl'. simplify_eq.
    cbn [exec].
    rewrite (run_thread_some t' s _ _ _ _ Ht' Hstep).
    rewrite (run_thread_some t' (snd (stop_download s)) _ _ _ _ Ht' Hstep').
    split; [done|]. cbn [sys_threads stop_download snd].
    eexists. apply list_lookup_insert_eq. by apply lookup_lt_Some in Ht'.
Qed.

End Cancellation.

(** ** Running twice *)

Section Resume.
Context {E : External}.

Lemma keeps_refl w : keeps w w.
Proof. by intros p. Qed.

Lemma keeps_trans w1 w2 w3 : keeps w1 w2 → keeps w2 w3 → keeps w1 w3.
Proof. intros H12 H23 p Hp. by apply H23, H12. Qed.

Lemma attempts_keeps tmpl ids st b st' :
  no_deletions → attempts tmpl ids st b st' → keeps (fst st) (fst st').
Proof.
  intros [_ Hdl]. induction 1 as [st|id rest st w' Hrun|id rest st e w' b st' Hrun _ IH].
  - apply keeps_refl.
  - pose proof (Hdl tmpl (video_url_of id) (fst st)) as Hk. by rewrite Hrun in Hk.
  - pose proof (Hdl tmpl (video_url_of id) (fst st)) as Hk. rewrite Hrun in Hk.
    by eapply keeps_trans.
Qed.

Lemma fetches_keeps track_info folder st b st' :
  no_deletions → fetches track_info folder st b st' → keeps (fst st) (fst st').
Proof.
  intros Hno Hf. pose proof Hno as [Hurl _].
  destruct Hf as [| | | |t a others st e w' _ _ _ Hs|t a others st html w' _ _ _ Hs
                  |t a others st html w' b st' _ _ _ Hs _ Hatt];
    try apply keeps_refl.
  - pose proof (Hurl (search_url (track_name t) (artist_name a)) (fst st)) as Hk.
    by rewrite Hs in Hk.
  - pose proof (Hurl (search_url (track_name t) (artist_name a)) (fst st)) as Hk.
    by rewrite Hs in Hk.
  - pose proof (Hurl (search_url (track_name t) (artist_name a)) (fst st)) as Hk.
    rewrite Hs in Hk. eapply keeps_trans; [exact Hk|].
    by apply (attempts_keeps _ _ _ _ _ Hno Hatt).
Qed.

Lemma attempts_land folder name ids st st' :
  downloads_land → attempts (outtmpl_of folder name) ids st true st' →
  path_exists (final_file_of folder name) (fst st') = true.
Proof.
  intros Hland Hatt. remember true as b eqn:Hb.
  remember (outtmpl_of folder name) as tmpl eqn:Htmpl.
  induction Hatt as [st|id rest st w' Hrun|id rest st e w' b st' Hrun _ IH];
    [done| |by apply IH].
  subst. by eapply Hland.
Qed.

(** A track the worker reports as obtained has its target file in place. *)
Lemma fetches_true_present track_info folder st st' :
  downloads_land → fetches track_info folder st true st' →
  ∃ t a others,
    playable track_info t ∧ track_artists t = a :: others
    ∧ path_exists (final_file_of folder
                     (sanitized_name_of (artist_name a) (track_name t)))
                  (fst st') = true.
Proof.
  intros Hland Hf. remember true as b eqn:Hb.
  destruct Hf as [| | |t a others st Hp Ha Hex| |
                  |t a others st html w' b st' Hp Ha _ _ _ Hatt]; try done.
  - by exists t, a, others.
  - subst b. exists t, a, others. split_and!; [done|done|].
    by eapply attempts_land.
Qed.

(** The check of the next track while the flag is set. *)
Lemma run_thread_check t s folder i track_info rest succ :
  sys_threads s !! t = Some (WLoop folder i (track_info :: rest) succ) →
  is_downloading (sys_api s) = true →
  (labelled track_info
   ∧ sys_threads (run_thread t s) !! t
     = Some (WBody folder i track_info rest succ)
   ∧ is_downloading (sys_api (run_thread t s)) = true
   ∧ sys_state (run_thread t s) = sys_state s)
  ∨ (¬ labelled track_info
     ∧ sys_threads (run_thread t s) !! t = Some WDone
     ∧ named (status (run_thread t s)) "error").
Proof.
  intros Ht Hflag.
  destruct (worker_step (WLoop folder i (track_info :: rest) succ)
              (sys_api s) (sys_state s)) as [[wk' a'] st'] eqn:Hstep.
  pose proof (lookup_after_run _ _ _ _ _ _ Ht Hstep) as Ht'.
  rewrite (run_thread_some _ _ _ _ _ _ Ht Hstep) in Ht' |- *.
  cbn [sys_api sys_state]. cbn [worker_step] in Hstep. rewrite Hflag in Hstep.
  cbn [negb] in Hstep. unfold current_track_label, first_artist_name in Hstep.
  destruct (item_track track_info) as [t0|] eqn:Hit.
  - destruct (track_artists t0) as [|a others] eqn:Hart.
    + unfold bind, raise, ret in Hstep; cbv beta iota in Hstep. simplify_eq. right. split_and!; [|done|].
      * intros (t1 & a & others & ? & ?). congruence.
      * unfold named, status, field, on_exception, progress_put, set_progress, set_is_downloading. cbn [sys_api download_progress]. by simplify_map_eq.
    + unfold bind, raise, ret in Hstep; cbv beta iota in Hstep. simplify_eq. left. split_and!; try done.
      by exists t0, a, others.
  - unfold bind, raise, ret in Hstep; cbv beta iota in Hstep. simplify_eq. right. split_and!; [|done|].
    + intros (t1 & a & others & ? & ?). congruence.
    + unfold named, status, field, on_exception, progress_put, set_progress, set_is_downloading. cbn [sys_api download_progress]. by simplify_map_eq.
Qed.

(** The call of the worker for the track. *)
Lemma run_thread_body t s folder i track_info rest succ :
  sys_threads s !! t = Some (WBody folder i track_info rest succ) →
  ∃ b st',
    download_track track_info folder (sys_state s) = (Ok b, st')
    ∧ fetches track_info folder (sys_state s) b st'
    ∧ sys_threads (run_thread t s) !! t
      = Some (WLoop folder (i + 1) rest (if b then succ + 1 else succ)%nat)
    ∧ sys_api (run_thread t s) = sys_api s
    ∧ sys_state (run_thread t s) = st'.
Proof.
  intros Ht.
  destruct (worker_step_body folder i track_info rest succ
              (sys_api s) (sys_state s)) as (b & st' & Hdl & Hstep).
  pose proof (lookup_after_run _ _ _ _ _ _ Ht Hstep) as Ht'.
  rewrite (run_thread_some _ _ _ _ _ _ Ht Hstep) in Ht' |- *.
  exists b, st'. split_and!; try done.
  destruct (download_track_fetches track_info folder (sys_state s))
    as (b0 & st0 & Hdl0 & Hf). rewrite Hdl in Hdl0. by simplify_eq.
Qed.

(** The end of the loop. *)
Lemma run_thread_completed t s folder i succ :
  sys_threads s !! t = Some (WLoop folder i [] succ) →
  sys_threads (run_thread t s) !! t = Some WDone
  ∧ named (status (run_thread t s)) "completed"
  ∧ field "successful" (run_thread t s) = Some (VInt (Z.of_nat succ))
  ∧ sys_state (run_thread t s) = sys_state s.
Proof.
  intros Ht.
  destruct (worker_step (WLoop folder i [] succ) (sys_api s) (sys_state s))
    as [[wk' a'] st'] eqn:Hstep.
  pose proof (lookup_after_run _ _ _ _ _ _ Ht Hstep) as Ht'.
  rewrite (run_thread_some _ _ _ _ _ _ Ht Hstep) in Ht' |- *.
  cbn [worker_step] in Hstep. simplify_eq.
  split_and!; [done| | |done].
  - unfold named, status, field. cbn. by simplify_map_eq.
  - unfold field. cbn. by simplify_map_eq.
Qed.

(** A thread that has ended does nothing. *)
Lemma after_done m t s :
  sys_threads s !! t = Some WDone → after m t s = s.
Proof.
  intros Ht. unfold after. induction m as [|m IH]; [done|].
  cbn [replicate exec_all exec].
  rewrite (run_thread_some t s WDone WDone (sys_api s) (sys_state s) Ht eq_refl).
  rewrite list_insert_id by done. by destruct s.
Qed.

Lemma after_S m t s : after (S m) t s = after m t (run_thread t s).
Proof. done. Qed.

Lemma named_distinct x n1 n2 :
  named x n1 → named x n2 → py n1 = py n2.
Proof. unfold named. intros -> [= ->]. done. Qed.

(** Two passes through the loop over the same tracks and folder, the
    second in a world that has kept the files the first one left. *)
Lemma twin_loops folder tA tB rest :
  no_deletions → downloads_land →
  ∀ i succA succB sA sB,
    sys_threads sA !! tA = Some (WLoop folder i rest succA) →
    is_downloading (sys_api sA) = true →
    sys_threads sB !! tB = Some (WLoop folder i rest succB) →
    is_downloading (sys_api sB) = true →
    named (status (after (2 * length rest + 1) tA sA)) "completed" →
    keeps (fst (sys_state (after (2 * length rest + 1) tA sA)))
          (fst (sys_state sB)) →
    keeps (fst (sys_state sA)) (fst (sys_state (after (2 * length rest + 1) tA sA)))
    ∧ named (status (after (2 * length rest + 1) tB sB)) "completed"
    ∧ (∃ gA gB : nat,
         field "successful" (after (2 * length rest + 1) tA sA)
         = Some (VInt (Z.of_nat (succA + gA)))
         ∧ field "successful" (after (2 * length rest + 1) tB sB)
           = Some (VInt (Z.of_nat (succB + gB)))
         ∧ (gA ≤ gB ≤ length rest)%nat
         ∧ (gA = length rest →
            sys_state (after (2 * length rest + 1) tB sB) = sys_state sB))
    ∧ (∀ j track_info,
         rest !! j = Some track_info →
         (∃ c, sys_threads (after (2 * j + 1) tA sA) !! tA
               = Some (WBody folder (i + j) track_info (drop (S j) rest) c))
         ∧ (∃ c, sys_threads (after (2 * j + 1) tB sB) !! tB
                 = Some (WBody folder (i + j) track_info (drop (S j) rest) c))
         ∧ (fst (download_track track_info folder
                   (sys_state (after (2 * j + 1) tA sA))) = Ok true →
            download_track track_info folder
              (sys_state (after (2 * j + 1) tB sB))
            = (Ok true, sys_state (after (2 * j + 1) tB sB)))).
Proof.
  intros Hno Hland.
  induction rest as [|track_info rest IH];
    intros i succA succB sA sB HtA HfA HtB HfB Hdone Hkeep.
  - cbn [length Nat.mul Nat.add] in *. unfold after in *.
    cbn [replicate exec_all exec] in *.
    destruct (run_thread_completed _ _ _ _ _ HtA) as (_ & _ & HsA & HstA).
    destruct (run_thread_completed _ _ _ _ _ HtB) as (_ & HnB & HsB & HstB).
    split_and!.
    + rewrite HstA. apply keeps_refl.
    + done.
    + exists 0%nat, 0%nat. rewrite !Nat.add_0_r. split_and!; try done; lia.
    + intros j ti Hj. by rewrite lookup_nil in Hj.
  - replace (2 * length (track_info :: rest) + 1)%nat
      with (S (S (2 * length rest + 1))) in * by (cbn [length]; lia).
    rewrite !after_S in *.
    (* the first run checks and labels the track *)
    destruct (run_thread_check _ _ _ _ _ _ _ HtA HfA)
      as [(Hlab & HtA1 & HfA1 & HstA1)|(_ & HtA1 & HerrA)].
    2: { change (run_thread tA (run_thread tA sA))
           with (after 1 tA (run_thread tA sA)) in Hdone.
         rewrite (after_done 1), after_done in Hdone by done.
         pose proof (named_distinct _ _ _ HerrA Hdone) as Hne.
         by vm_compute in Hne. }
    destruct (run_thread_body _ _ _ _ _ _ _ HtA1)
      as (bA & stA & HdlA & HfeA & HtA2 & HapiA & HstA2).
    (* and so does the second *)
    destruct (run_thread_check _ _ _ _ _ _ _ HtB HfB)
      as [(_ & HtB1 & HfB1 & HstB1)|(Hnlab & _)]; [|done].
    destruct (run_thread_body _ _ _ _ _ _ _ HtB1)
      as (bB & stB & HdlB & HfeB & HtB2 & HapiB & HstB2).
    set (sA2 := run_thread tA (run_thread tA sA)) in *.
    set (sB2 := run_thread tB (run_thread tB sB)) in *.
    assert (HfA2 : is_downloading (sys_api sA2) = true) by by rewrite HapiA.
    assert (HfB2 : is_downloading (sys_api sB2) = true) by by rewrite HapiB.
    assert (HkB : keeps (fst (sys_state sB)) (fst (sys_state sB2))).
    { rewrite HstB2, <- HstB1. by eapply fetches_keeps. }
    assert (HkA : keeps (fst (sys_state sA)) (fst (sys_state sA2))).
    { rewrite HstA2, <- HstA1. by eapply fetches_keeps. }
    destruct (IH (i + 1)%nat _ _ sA2 sB2 HtA2 HfA2 HtB2 HfB2 Hdone
                 (keeps_trans _ _ _ Hkeep HkB))
      as (HkA' & HdoneB & (gA & gB & HsA & HsB & Hle & Hall) & Hpos).
    (* a track obtained in the first run is there in the second *)
    assert (Hagain : bA = true →
              download_track track_info folder (sys_state (run_thread tB sB))
              = (Ok true, sys_state (run_thread tB sB))).
    { intros ->.
      destruct (fetches_true_present _ _ _ _ Hland HfeA)
        as (t & a & others & Hp & Ha & Hex).
      eapply download_track_present; [done|done|].
      rewrite HstB1. apply Hkeep, HkA'. by rewrite HstA2. }
    assert (Hsame : bA = true →
              bB = true ∧ stB = sys_state (run_thread tB sB)).
    { intros HbA. rewrite (Hagain HbA) in HdlB. by simplify_eq. }
    split_and!.
    + by eapply keeps_trans.
    + done.
    + exists ((if bA then 1 else 0) + gA)%nat, ((if bB then 1 else 0) + gB)%nat.
      split_and!.
      * rewrite HsA. do 3 f_equal. destruct bA; lia.
      * rewrite HsB. do 3 f_equal. destruct bB; lia.
      * destruct bA; [|destruct bB; lia].
        destruct (Hsame eq_refl) as [-> _]. lia.
      * cbn [length]. destruct bB; lia.
      * cbn [length]. intros Hg.
        destruct bA; [|lia].
        destruct (Hsame eq_refl) as [_ Hst].
        rewrite Hall by lia. by rewrite HstB2, Hst.
    + intros [|j] ti Hj.
      * cbn [lookup list_lookup] in Hj. simplify_eq.
        change (2 * 0 + 1)%nat with 1%nat. unfold after.
        cbn [replicate exec_all exec drop]. rewrite Nat.add_0_r.
        split_and!; [by eexists|by eexists|].
        rewrite HdlA. cbn [fst]. intros [= ->]. by apply Hagain.
      * cbn [lookup list_lookup] in Hj.
        replace (2 * S j + 1)%nat with (S (S (2 * j + 1))) by lia.
        rewrite !after_S. fold sA2 sB2.
        replace (i + S j)%nat with (i + 1 + j)%nat by lia.
        cbn [drop]. by apply Hpos.
Qed.

(** C5, as the code has it.  A track whose target file exists makes the
    worker return [true] with world and log untouched.  Let two runs reach
    the track loop with the same folder and the same tracks, the first
    complete, and the second start in a world that has kept the files the
    first left; let neither search nor download delete files, and let a
    download that returns normally leave its target.  Then the second run
    completes too; its success count is at least that of the first, and
    equal to it when the first obtained every track, in which case the
    whole second pass performs no outside call; and for every track the
    worker obtained in the first run, the worker of the second run returns
    [true] without search or download. *)
Theorem second_run_resumes
    (folder : str) (tracks : list item) (tA tB : nat) (sA sB : system) :
  no_deletions → downloads_land →
  sys_threads sA !! tA = Some (WLoop folder 0 tracks 0) →
  is_downloading (sys_api sA) = true →
  sys_threads sB !! tB = Some (WLoop folder 0 tracks 0) →
  is_downloading (sys_api sB) = true →
  named (status (after (2 * length tracks + 1) tA sA)) "completed" →
  keeps (fst (sys_state (after (2 * length tracks + 1) tA sA)))
        (fst (sys_state sB)) →
  (∀ track_info st t a others,
     playable track_info t → track_artists t = a :: others →
     path_exists (final_file_of folder
                    (sanitized_name_of (artist_name a) (track_name t)))
                 (fst st) = true →
     download_track track_info folder st = (Ok true, st))
  ∧ named (status (after (2 * length tracks + 1) tB sB)) "completed"
  ∧ (∃ cA cB : nat,
       field "successful" (after (2 * length tracks + 1) tA sA)
       = Some (VInt (Z.of_nat cA))
       ∧ field "successful" (after (2 * length tracks + 1) tB sB)
         = Some (VInt (Z.of_nat cB))
       ∧ (cA ≤ cB ≤ length tracks)%nat
       ∧ (cA = length tracks →
          cB = cA
          ∧ sys_state (after (2 * length tracks + 1) tB sB) = sys_state sB))
  ∧ (∀ j track_info,
       tracks !! j = Some track_info →
       (∃ c, sys_threads (after (2 * j + 1) tA sA) !! tA
             = Some (WBody folder j track_info (drop (S j) tracks) c))
       ∧ (∃ c, sys_threads (after (2 * j + 1) tB sB) !! tB
               = Some (WBody folder j track_info (drop (S j) tracks) c))
       ∧ (fst (download_track track_info folder
                 (sys_state (after (2 * j + 1) tA sA))) = Ok true →
          download_track track_info folder
            (sys_state (after (2 * j + 1) tB sB))
          = (Ok true, sys_state (after (2 * j + 1) tB sB)))).
Proof.
  intros Hno Hland HtA HfA HtB HfB Hdone Hkeep.
  destruct (twin_loops folder tA tB tracks Hno Hland 0%nat 0%nat 0%nat sA sB
              HtA HfA HtB HfB Hdone Hkeep)
    as (_ & HdoneB & (gA & gB & HsA & HsB & Hle & Hall) & Hpos).
  split_and!.
  - intros track_info st t a others. apply download_track_present.
  - done.
  - exists gA, gB. split_and!; try done; try lia.
    intros Hg. split; [lia|by apply Hall].
  - intros j track_info Hj. by apply Hpos.
Qed.

End Resume.

(** The laws hold in the simulated world. *)
Lemma sim_no_deletions sc : no_deletions (E := sim sc).
Proof.
  split.
  - intros url w p Hp. done.
  - intros outtmpl url w p Hp. cbn. destruct (sc_video_ok sc url); [|done].
    cbn in *. apply bool_decide_eq_true in Hp. apply bool_decide_eq_true.
    by apply list_elem_of_further.
Qed.

Lemma mp3_of_stem (stem : str) :
  mp3_of (stem ++ py ".%(ext)s") = stem ++ py ".mp3".
Proof.
  unfold mp3_of. f_equal. apply take_app_length'.
  rewrite length_app. change (length (py ".%(ext)s")) with 8%nat. lia.
Qed.

Lemma sim_ydl_download sc outtmpl url w :
  ydl_download (External := sim sc) outtmpl url w
  = if sc_video_ok sc url then (Ok tt, mp3_of outtmpl :: w)
    else (Raise (ExternalError (py "download failed")), w).
Proof. reflexivity. Qed.

Lemma sim_outtmpl_of sc folder name :
  outtmpl_of (E := sim sc) folder name
  = (folder ++ py "/" ++ name) ++ py ".%(ext)s".
Proof. rewrite <- !app_assoc. reflexivity. Qed.

Lemma sim_final_file_of sc folder name :
  final_file_of (E := sim sc) folder name
  = (folder ++ py "/" ++ name) ++ py ".mp3".
Proof. rewrite <- !app_assoc. reflexivity. Qed.

Lemma sim_downloads_land sc : downloads_land (E := sim sc).
Proof.
  intros folder name url w w'.
  rewrite sim_outtmpl_of, sim_final_file_of, sim_ydl_download, mp3_of_stem.
  destruct (sc_video_ok sc url); [|done].
  intros H. injection H as <-.
  apply bool_decide_eq_true, list_elem_of_here.
Qed.


(** ** The theorems at concrete runs *)

(** Over [sc_mix], a stop request after the first track: the run is
    cancelled at current index 1, before the slot that is gone. *)
Lemma stop_at_track_boundary_witness :
  solo 0 (replicate 5 (Run 0%nat))
  ∧ solo 0 [Run 0%nat; Stop; Run 0%nat]
  ∧ sys_threads
      (exec_all (Start good_url :: replicate 5 (Run 0%nat)) mix_init) !! 0%nat
    = Some (WLoop (py "/music/Mix") 1 [gone; song "C" "D"] 1)
  ∧ status (exec_all [Stop; Run 0%nat; Stop; Run 0%nat]
              (exec_all (Start good_url :: replicate 5 (Run 0%nat)) mix_init))
    = Some (VStr (py "cancelled"))
  ∧ field "current"
      (exec_all [Stop; Run 0%nat; Stop; Run 0%nat]
         (exec_all (Start good_url :: replicate 5 (Run 0%nat)) mix_init))
    = Some (VInt 1).
Proof.
  assert (H1 : solo 0 (replicate 5 (Run 0%nat))).
  { repeat (constructor; [by right|]). constructor. }
  assert (H2 : solo 0 [Run 0%nat; Stop; Run 0%nat]).
  { repeat (constructor; [(by left) || (by right)|]). constructor. }
  assert (H3 : Run 0%nat ∈ [Run 0%nat; Stop; Run 0%nat]) by constructor.
  assert (H4 : sys_threads
      (exec_all (Start good_url :: replicate 5 (Run 0%nat)) mix_init) !! 0%nat
    = Some (WLoop (py "/music/Mix") 1 [gone; song "C" "D"] 1))
    by (vm_compute; reflexivity).
  assert (H5 : [gone; song "C" "D"] ≠ []) by discriminate.
  pose proof (stop_at_track_boundary (E := sim sc_mix) mix_init good_url
                (replicate 5 (Run 0%nat)) [Run 0%nat; Stop; Run 0%nat]
                (py "/music/Mix") 1 [gone; song "C" "D"] 1 H1 H2 H3 H4 H5)
    as (Hstatus & Hcurrent & _).
  split; [exact H1|]. split; [exact H2|]. split; [exact H4|].
  split; [exact Hstatus | exact Hcurrent].
Defined.

Example twins_first_run :
  status twins_first = Some (VStr (py "completed"))
  ∧ field "successful" twins_first = Some (VInt 1)
  ∧ field "current" twins_first = Some (VInt 2)
  ∧ is_downloading (sys_api twins_first) = false.
Proof. split_and!; vm_compute; reflexivity. Qed.

(** C3, as stated, fails: a run on an input that is no playlist URL goes
    from [starting] to [error] and is never [downloading]; and a run that
    follows a completed one takes the field from [completed] to
    [starting], not to [idle]. *)
Lemma status_not_reset_to_idle :
  status <$> states_along [Start (py "not a url"); Run 0%nat; Run 0%nat] mix_init
  = seen_as ["idle"; "starting"; "error"]
  ∧ status twins_first = Some (VStr (py "completed"))
  ∧ status <$> states_along (Start good_url :: replicate 8 (Run 1%nat)) twins_first
    = seen_as ["completed"; "starting"; "starting"; "downloading"; "downloading";
               "downloading"; "downloading"; "downloading"; "completed"].
Proof. split_and!; vm_compute; reflexivity. Qed.

(** The two runs over [sc_twins], from the moment each enters the loop. *)
Lemma second_run_resumes_witness :
  no_deletions (E := sim sc_twins)
  ∧ downloads_land (E := sim sc_twins)
  ∧ sys_threads twins_loop_first !! 0%nat
    = Some (WLoop (py "/music/Twins") 0 (sc_tracks sc_twins) 0)
  ∧ is_downloading (sys_api twins_loop_first) = true
  ∧ sys_threads twins_loop_second !! 1%nat
    = Some (WLoop (py "/music/Twins") 0 (sc_tracks sc_twins) 0)
  ∧ is_downloading (sys_api twins_loop_second) = true
  ∧ named (status (after 5 0 twins_loop_first)) "completed"
  ∧ keeps (E := sim sc_twins)
          (fst (sys_state (after 5 0 twins_loop_first)))
          (fst (sys_state twins_loop_second))
  ∧ named (status (after 5 1 twins_loop_second)) "completed"
  ∧ field "successful" (after 5 0 twins_loop_first) = Some (VInt 1)
  ∧ field "successful" (after 5 1 twins_loop_second) = Some (VInt 2).
Proof.
  pose proof (sim_no_deletions sc_twins) as H1.
  pose proof (sim_downloads_land sc_twins) as H2.
  assert (H3 : sys_threads twins_loop_first !! 0%nat
    = Some (WLoop (py "/music/Twins") 0 (sc_tracks sc_twins) 0))
    by (vm_compute; reflexivity).
  assert (H4 : is_downloading (sys_api twins_loop_first) = true)
    by (vm_compute; reflexivity).
  assert (H5 : sys_threads twins_loop_second !! 1%nat
    = Some (WLoop (py "/music/Twins") 0 (sc_tracks sc_twins) 0))
    by (vm_compute; reflexivity).
  assert (H6 : is_downloading (sys_api twins_loop_second) = true)
    by (vm_compute; reflexivity).
  assert (H7 : named (status (after 5 0 twins_loop_first)) "completed")
    by (vm_compute; reflexivity).
  assert (H8 : keeps (E := sim sc_twins)
                 (fst (sys_state (after 5 0 twins_loop_first)))
                 (fst (sys_state twins_loop_second))).
  { intros p. change (path_exists (External := sim sc_twins) p ?w)
      with (bool_decide (p ∈ w)).
    rewrite !bool_decide_eq_true.
    assert (Hw : fst (sys_state twins_loop_second)
                 = py "/music/Twins"
                   :: fst (sys_state (after 5 0 twins_loop_first)))
      by (vm_compute; reflexivity).
    rewrite Hw. apply list_elem_of_further. }
  pose proof (second_run_resumes (E := sim sc_twins) (py "/music/Twins")
                (sc_tracks sc_twins) 0 1 twins_loop_first twins_loop_second
                H1 H2 H3 H4 H5 H6 H7 H8) as (_ & Hdone & _).
  do 8 (split; [assumption|]).
  split; [exact Hdone|]. split; vm_compute; reflexivity.
Defined.

(** C5, as stated, fails: over [sc_twins] the first run completes with one
    success (the first track finds no candidate), the second run completes
    with two (both target files are the one the first run left), without
    any deletion in between and without any download in the second run. *)
Lemma second_run_counts_more :
  sanitized_name_of (py "A") (py "B?") = sanitized_name_of (py "A") (py "B")
  ∧ status twins_first = Some (VStr (py "completed"))
  ∧ field "successful" twins_first = Some (VInt 1)
  ∧ status twins_second = Some (VStr (py "completed"))
  ∧ field "successful" twins_second = Some (VInt 2)
  ∧ filter (λ ev, is_download ev = true) (snd (sys_state twins_second))
    = filter (λ ev, is_download ev = true) (snd (sys_state twins_first))
  ∧ filter (λ ev, is_search ev = true) (snd (sys_state twins_second))
    = filter (λ ev, is_search ev = true) (snd (sys_state twins_first))
  ∧ fst (sys_state twins_first) ⊆ fst (sys_state twins_second).
Proof.
  split_and!; try (vm_compute; reflexivity).
  assert (Hw : fst (sys_state twins_second)
               = py "/music/Twins" :: fst (sys_state twins_first))
    by (vm_compute; reflexivity).
  rewrite Hw. intros p Hp. by apply list_elem_of_further.
Qed.

(** * Further properties of the code *)

(** ** [config.get_safe_filename] *)

Lemma replace_invalid_map (s : str) :
  replace_invalid s
  = (λ c, if bool_decide (c ∈ INVALID_CHARS) then 95 else c) <$> s.
Proof.
  unfold replace_invalid, INVALID_CHARS, replace_char. cbn [fold_left].
  rewrite <- !list_fmap_compose. apply list_fmap_ext. intros _ c _.
  cbn [compose].
  repeat match goal with
         | |- context [N.eqb c ?k] =>
             destruct (N.eqb_spec c k) as [->|?]; [by vm_compute|cbv iota]
         end.
  rewrite bool_decide_eq_false_2; [done|].
  rewrite !elem_of_cons, elem_of_nil. intuition congruence.
Qed.

Lemma split_from_Forall (P : N → Prop) (word s : str) :
  Forall P word → Forall (λ c, is_space c = false → P c) s →
  Forall (Forall P) (split_from word s).
Proof.
  revert word. induction s as [|c s IH]; intros word Hw Hs; cbn [split_from].
  - destruct word; cbv iota; [apply Forall_nil_2 | by apply Forall_singleton].
  - apply Forall_cons in Hs as [Hc Hs].
    destruct (is_space c) eqn:Hsp.
    + destruct word as [|x word]; cbv iota; [by apply IH|].
      constructor; [done|]. by apply IH.
    + apply IH; [|done]. apply Forall_app. split; [done|].
      repeat constructor. by apply Hc.
Qed.

Lemma join_Forall (P : N → Prop) (sep : str) (words : list str) :
  Forall P sep → Forall (Forall P) words → Forall P (join sep words).
Proof.
  intros Hsep. induction 1 as [|w ws Hw Hws IH]; [constructor|].
  cbn [join]. destruct ws as [|w' ws]; [done|].
  apply Forall_app. split; [done|]. apply Forall_app. by split.
Qed.

Lemma rstrip_prefix (c : N) (s : str) : rstrip c s `prefix_of` s.
Proof.
  induction s as [|x s IH]; cbn [rstrip]; [done|].
  destruct (rstrip c s) as [|y r] eqn:Hr.
  - destruct (N.eqb x c); [apply prefix_nil|]. by apply prefix_cons, prefix_nil.
  - by apply prefix_cons.
Qed.

(** Without whitespace there is one word, the string itself. *)
Lemma split_from_one (word s : str) :
  Forall (λ c, is_space c = false) s →
  split_from word s = match word ++ s with [] => [] | _ => [word ++ s] end.
Proof.
  revert word. induction s as [|c s IH]; intros word Hs; cbn [split_from].
  - rewrite app_nil_r. by destruct word.
  - apply Forall_cons in Hs as [-> Hs]. rewrite IH by done.
    by rewrite <- app_assoc.
Qed.

Lemma safe_underscore : safe_char 95.
Proof. split; [|done]. by_compute. Qed.

Lemma get_safe_filename_fixed (name : str) :
  Forall safe_char name → (length name ≤ MAX_FILENAME_LENGTH)%nat →
  get_safe_filename name = name.
Proof.
  intros Hsafe Hlen. unfold get_safe_filename.
  assert (Hrep : replace_invalid name = name).
  { rewrite replace_invalid_map. rewrite <- (list_fmap_id name) at 2.
    apply list_fmap_ext. intros i c Hc.
    rewrite Forall_lookup in Hsafe. destruct (Hsafe i c Hc) as [Hin _].
    by rewrite bool_decide_eq_false_2. }
  rewrite Hrep. unfold split. rewrite split_from_one.
  - cbn [app]. destruct name as [|c name]; cbn [join]; [done|].
    destruct (Nat.ltb_spec MAX_FILENAME_LENGTH (length (c :: name))); [lia|done].
  - eapply Forall_impl; [exact Hsafe|]. by intros c [_ ?].
Qed.

(** X5: the name [get_safe_filename] returns holds none of the invalid
    characters and no whitespace, is at most 255 characters long, and is
    left as it is by a second pass; a name that is already safe and short
    is returned unchanged. *)
Theorem get_safe_filename_safe (filename : str) :
  Forall safe_char (get_safe_filename filename)
  ∧ (length (get_safe_filename filename) ≤ MAX_FILENAME_LENGTH)%nat
  ∧ get_safe_filename (get_safe_filename filename) = get_safe_filename filename
  ∧ (Forall safe_char filename → (length filename ≤ MAX_FILENAME_LENGTH)%nat →
     get_safe_filename filename = filename).
Proof.
  assert (Hjoin : Forall safe_char (join [95] (split (replace_invalid filename)))).
  { apply join_Forall; [repeat constructor; apply safe_underscore|].
    apply split_from_Forall; [constructor|].
    rewrite replace_invalid_map. apply Forall_fmap, Forall_forall.
    intros c _ Hsp. cbn [compose] in *.
    case_bool_decide as Hin.
    - apply safe_underscore.
    - by split. }
  assert (Hsafe : Forall safe_char (get_safe_filename filename)).
  { unfold get_safe_filename. case_match; [|done].
    pose proof (Forall_take _ MAX_FILENAME_LENGTH _ Hjoin) as Htake.
    destruct (rstrip_prefix 95 (take MAX_FILENAME_LENGTH
                (join [95] (split (replace_invalid filename))))) as [k Hk].
    rewrite Hk in Htake. by apply Forall_app in Htake as [? _]. }
  assert (Hlen : (length (get_safe_filename filename) ≤ MAX_FILENAME_LENGTH)%nat).
  { unfold get_safe_filename.
    destruct (Nat.ltb_spec MAX_FILENAME_LENGTH
                (length (join [95] (split (replace_invalid filename)))));
      [|lia].
    etrans; [apply prefix_length, rstrip_prefix|].
    rewrite length_take. lia. }
  split_and!; [done|done| |apply get_safe_filename_fixed].
  by apply get_safe_filename_fixed.
Qed.

Example get_safe_filename_ex :
  get_safe_filename (py "AC/DC:  Back in  Black?") = py "AC_DC__Back_in_Black_".
Proof. vm_compute. reflexivity. Qed.

(** ** File names of tracks *)

Lemma sanitize_filename_app (a b : str) :
  sanitize_filename (a ++ b) = sanitize_filename a ++ sanitize_filename b.
Proof. unfold sanitize_filename. apply filter_app. Qed.

Lemma sanitize_filename_nothing (x : str) :
  Forall (λ c, ¬ allowed c) x → sanitize_filename x = [].
Proof.
  intros H. unfold sanitize_filename.
  induction H as [|c x Hc _ IH]; [done|].
  rewrite filter_cons_False; [done|]. by rewrite valid_chars_allowed.
Qed.

Lemma sanitize_filename_all (x : str) :
  Forall allowed x → sanitize_filename x = x.
Proof.
  intros H. unfold sanitize_filename.
  induction H as [|c x Hc _ IH]; [done|].
  rewrite filter_cons_True; [by f_equal|]. by rewrite valid_chars_allowed.
Qed.

(** X3: the file name of a track is the sanitized artist, [" - "], and the
    sanitized title; it is never longer than the label it comes from; and
    all tracks whose artist and title hold no allowed character have one
    and the same target file, [" - .mp3"] in the folder. *)
Theorem sanitized_name_of_parts {E : External} (artist_name title : str) :
  sanitized_name_of artist_name title
  = sanitize_filename artist_name ++ py " - " ++ sanitize_filename title
  ∧ (length (sanitized_name_of artist_name title)
     ≤ length (artist_name ++ py " - " ++ title))%nat
  ∧ (∀ folder,
       Forall (λ c, ¬ allowed c) artist_name →
       Forall (λ c, ¬ allowed c) title →
       final_file_of folder (sanitized_name_of artist_name title)
       = path_join folder (py " - .mp3")).
Proof.
  assert (Hparts : sanitized_name_of artist_name title
            = sanitize_filename artist_name ++ py " - " ++ sanitize_filename title).
  { unfold sanitized_name_of. rewrite !sanitize_filename_app. do 2 f_equal. }
  split_and!.
  - done.
  - unfold sanitized_name_of, sanitize_filename. apply length_filter.
  - intros folder Ha Ht. unfold final_file_of.
    by rewrite Hparts, !sanitize_filename_nothing.
Qed.

(** ** Playlist URLs made from an identifier *)

Lemma differs_strip (lit pre s : str) :
  differs lit pre = true → strip_literal lit (pre ++ s) = None.
Proof.
  revert pre. induction lit as [|a lit IH]; intros [|b pre]; cbn; try done.
  destruct (N.eqb a b); [apply IH | done].
Qed.

Lemma forallb_seq_S (f : nat → bool) (a n : nat) :
  forallb f (seq (S a) n) = forallb (λ k, f (S k)) (seq a n).
Proof.
  revert a. induction n as [|n IH]; intros a; [done|].
  cbn [seq forallb]. by rewrite IH.
Qed.

Lemma re_search_past (lit pre s : str) :
  never_in lit pre = true → re_search lit (pre ++ s) = re_search lit s.
Proof.
  unfold never_in. induction pre as [|c pre IH]; intros H; [done|].
  cbn [length seq forallb] in H. apply andb_true_iff in H as [Hc H].
  rewrite drop_0 in Hc. rewrite forallb_seq_S in H.
  change ((c :: pre) ++ s) with (c :: (pre ++ s)). cbn [re_search].
  unfold match_here at 1.
  change (c :: pre ++ s) with ((c :: pre) ++ s).
  rewrite (differs_strip _ _ _ Hc). by apply IH.
Qed.

Lemma match_here_at (lit id rest : str) :
  id ≠ [] → Forall (λ c, is_alnum c = true) id →
  head (List.map is_alnum rest) ≠ Some true →
  match_here lit (lit ++ id ++ rest) = Some id.
Proof.
  intros Hne Hal Hhd. apply match_here_occurs. exists rest.
  by rewrite drop_0.
Qed.

Lemma re_search_at (lit id rest : str) :
  id ≠ [] → Forall (λ c, is_alnum c = true) id →
  head (List.map is_alnum rest) ≠ Some true →
  re_search lit (lit ++ id ++ rest) = Some id.
Proof.
  intros Hne Hal Hhd.
  pose proof (match_here_at lit id rest Hne Hal Hhd) as Hm.
  destruct (lit ++ id ++ rest); cbn [re_search]; by rewrite Hm.
Qed.

(** A run of alphanumeric characters holds no [playlist/]. *)
Lemma re_search_alnum (s : str) :
  Forall (λ c, is_alnum c = true) s → re_search (py "playlist/") s = None.
Proof.
  intros Hal. apply re_search_nowhere. intros n g (rest & Hdrop & _).
  assert (Hin : 47 ∈ drop n s).
  { rewrite Hdrop. apply elem_of_app. left. by_compute. }
  apply (subseteq_drop n s) in Hin.
  rewrite Forall_forall in Hal. by specialize (Hal 47 Hin).
Qed.

(** X4: the identifier put into a playlist URL of the web form, whatever
    follows it, or into a playlist URI, is the one [extract_playlist_id]
    returns. *)
Theorem extract_playlist_id_of_url (id rest : str) :
  id ≠ [] → Forall (λ c, is_alnum c = true) id →
  head (List.map is_alnum rest) ≠ Some true →
  extract_playlist_id (py "https://open.spotify.com/playlist/" ++ id ++ rest)
  = Some id
  ∧ extract_playlist_id (py "spotify:playlist:" ++ id) = Some id.
Proof.
  intros Hne Hal Hhd. unfold extract_playlist_id, patterns.
  cbn [search_patterns]. split.
  - change (py "https://open.spotify.com/playlist/")
      with (py "https://open.spotify.com/" ++ py "playlist/").
    rewrite <- app_assoc, re_search_past by by vm_compute.
    by rewrite re_search_at.
  - rewrite re_search_past by by vm_compute.
    rewrite re_search_alnum by done.
    change (py "spotify:playlist:") with (py "spotify:" ++ py "playlist:").
    rewrite <- app_assoc, re_search_past by by vm_compute.
    rewrite <- (app_nil_r id) at 1. by rewrite re_search_at.
Qed.

Lemma extract_playlist_id_of_url_witness :
  py "37i9dQZF1DXcBWIGoYBM5M" ≠ []
  ∧ Forall (λ c, is_alnum c = true) (py "37i9dQZF1DXcBWIGoYBM5M")
  ∧ head (List.map is_alnum (py "?si=abc playlist/zzz")) ≠ Some true
  ∧ extract_playlist_id
      (py "https://open.spotify.com/playlist/" ++ py "37i9dQZF1DXcBWIGoYBM5M"
       ++ py "?si=abc playlist/zzz")
    = Some (py "37i9dQZF1DXcBWIGoYBM5M").
Proof.
  assert (H1 : py "37i9dQZF1DXcBWIGoYBM5M" ≠ []) by discriminate.
  assert (H2 : Forall (λ c, is_alnum c = true) (py "37i9dQZF1DXcBWIGoYBM5M"))
    by (vm_compute; repeat constructor).
  assert (H3 : head (List.map is_alnum (py "?si=abc playlist/zzz")) ≠ Some true)
    by discriminate.
  split; [exact H1|]. split; [exact H2|]. split; [exact H3|].
  exact (proj1 (extract_playlist_id_of_url _ _ H1 H2 H3)).
Defined.

(** ** Candidate video identifiers *)

Lemma match_watch_Some (s g : str) :
  match_watch s = Some g →
  length g = 11%nat ∧ Forall (λ c, is_space c = false) g
  ∧ ∃ post, s = py "watch?v=" ++ g ++ post.
Proof.
  unfold match_watch.
  destruct (strip_literal (py "watch?v=") s) as [rest|] eqn:Hs; [|done].
  apply strip_literal_spec in Hs as ->.
  destruct (Nat.eqb_spec (length (take 11 rest)) 11) as [Hlen|]; [|done].
  cbn [andb]. destruct (forallb _ (take 11 rest)) eqn:Hall; [|done].
  intros [= <-]. split_and!; [done| |].
  - apply Forall_forall. intros c Hc.
    rewrite forallb_forall in Hall. apply list_elem_of_In in Hc.
    specialize (Hall c Hc). by destruct (is_space c).
  - exists (drop 11 rest). by rewrite take_drop.
Qed.

Lemma findall_watch_from (skip : nat) (s : str) :
  Forall (λ g, length g = 11%nat ∧ Forall (λ c, is_space c = false) g
               ∧ ∃ pre post, s = pre ++ py "watch?v=" ++ g ++ post)
         (findall_watch skip s)
  ∧ (19 * length (findall_watch skip s) ≤ length s - skip)%nat.
Proof.
  revert skip. induction s as [|c s IH]; intros skip; [by split; [constructor|]|].
  assert (Hlift : ∀ k,
    Forall (λ g, length g = 11%nat ∧ Forall (λ c, is_space c = false) g
                 ∧ ∃ pre post, c :: s = pre ++ py "watch?v=" ++ g ++ post)
           (findall_watch k s)).
  { intros k. destruct (IH k) as [Hall _].
    eapply Forall_impl; [exact Hall|].
    intros g (? & ? & pre & post & ->). split_and!; [done|done|].
    by exists (c :: pre), post. }
  cbn [findall_watch]. destruct skip as [|skip].
  - destruct (match_watch (c :: s)) as [g|] eqn:Hm.
    + destruct (match_watch_Some _ _ Hm) as (Hlen & Hsp & post & Hs).
      split.
      * constructor; [|apply Hlift]. split_and!; [done|done|].
        by exists [], post.
      * destruct (IH 18%nat) as [_ Hcount].
        assert (Hlong : (19 ≤ length (c :: s))%nat).
        { rewrite Hs, !length_app, Hlen. change (length (py "watch?v=")) with 8%nat.
          lia. }
        cbn [length] in *. lia.
    + split; [apply Hlift|]. destruct (IH 0%nat) as [_ Hcount].
      cbn [length]. lia.
  - split; [apply Hlift|]. destruct (IH skip) as [_ Hcount].
    cbn [length]. lia.
Qed.

(** X1: every candidate [re.findall] takes from the result page is a run
    of exactly 11 characters without whitespace that stands in the page
    right after [watch?v=]; the matches do not overlap, so a page of [n]
    characters gives at most [n / 19] candidates. *)
Theorem findall_watch_candidates (html : str) :
  Forall (λ g, length g = 11%nat ∧ Forall (λ c, is_space c = false) g
               ∧ ∃ pre post, html = pre ++ py "watch?v=" ++ g ++ post)
         (findall_watch 0 html)
  ∧ (19 * length (findall_watch 0 html) ≤ length html)%nat.
Proof.
  destruct (findall_watch_from 0 html) as [Hall Hcount]. split; [done|lia].
Qed.

Example findall_watch_ex :
  findall_watch 0 (py "a watch?v=abcdefghijk&x watch?v=short watch?v=ABCDEFGHIJKLMN")
  = [py "abcdefghijk"; py "ABCDEFGHIJK"].
Proof. vm_compute. reflexivity. Qed.

(** ** The outside calls of the worker *)

Section WorkerCalls.
Context {E : External}.

Lemma attempts_events tmpl ids st b st' :
  attempts tmpl ids st b st' →
  ∃ tried, snd st' = snd st ++ ((λ v, EvDownload tmpl (video_url_of v)) <$> tried)
           ∧ (length tried ≤ length ids)%nat
           ∧ (b = true → tried ≠ []).
Proof.
  intros Hatt.
  destruct (attempts_prefix _ _ _ _ _ Hatt) as (k & Hk & Hlog & _ & Htrue).
  exists (take k ids). split_and!; [done|rewrite length_take; lia|].
  intros Hb Hnil. specialize (Htrue Hb).
  apply (f_equal length) in Hnil. rewrite length_take in Hnil.
  cbn in Hnil. lia.
Qed.

(** X2: a call of [download_track] makes no outside call at all and
    leaves the world as it is, or makes one search followed by at most
    three downloads, all with one template; it never calls the catalog and
    never creates a folder; when it returns [true] after a search, a
    download was made. *)
Theorem download_track_calls track_info folder st :
  ∃ b st',
    download_track track_info folder st = (Ok b, st')
    ∧ (st' = st
       ∨ ∃ url outtmpl tried,
           snd st' = snd st ++ EvSearch url ::
                       ((λ v, EvDownload outtmpl (video_url_of v)) <$> tried)
           ∧ (length tried ≤ 3)%nat
           ∧ (b = true → tried ≠ [])).
Proof.
  destruct (download_track_fetches track_info folder st) as (b & st' & Hrun & Hf).
  exists b, st'. split; [done|].
  destruct Hf as [| | | |t a others st e w' _ _ _ Hs|t a others st html w' _ _ _ Hs
                  |t a others st html w' b st' _ _ _ Hs _ Hatt];
    try (by left).
  - right. eexists _, [], []. by split_and!; [|cbn; lia|].
  - right. eexists _, [], []. by split_and!; [|cbn; lia|].
  - right. destruct (attempts_events _ _ _ _ _ Hatt) as (tried & Hlog & Hlen & Hb).
    eexists _, _, tried. split_and!; [|rewrite length_take in Hlen; lia|done].
    rewrite Hlog. cbn [snd]. by rewrite <- app_assoc.
Qed.

End WorkerCalls.

(** ** The download path *)

Section MoreCallsFacts.
Context {E : External}.

Lemma prepare_folder_under a playlist_id st folder st' :
  prepare_folder a playlist_id st = (Ok folder, st') →
  ∃ name, folder = path_join (download_path a) (sanitize_filename name).
Proof.
  unfold prepare_folder, bind. rewrite call_eq.
  destruct (sp_playlist_name playlist_id (fst st)) as [[name|?] ?];
    cbn [fst snd]; [|done].
  rewrite call_eq. destruct (makedirs _ _) as [[[]|?] ?]; cbn [fst snd]; [|done].
  unfold ret. intros H. exists name. congruence.
Qed.

(** X6: [set_download_path] stores the path before it creates the
    directory: [get_download_path] answers with the new path also when the
    call reported [Invalid path], and the next run puts its folder under
    it.  The call makes the one [makedirs] and leaves flag, progress record
    and threads alone. *)
Theorem set_download_path_stores (path : str) (s : system) :
  get_download_path (snd (set_download_path path s)) = path
  ∧ is_downloading (sys_api (snd (set_download_path path s)))
    = is_downloading (sys_api s)
  ∧ download_progress (sys_api (snd (set_download_path path s)))
    = download_progress (sys_api s)
  ∧ sys_threads (snd (set_download_path path s)) = sys_threads s
  ∧ snd (sys_state (snd (set_download_path path s)))
    = snd (sys_state s) ++ [EvMakedirs path]
  ∧ (∀ e, fst (makedirs path (fst (sys_state s))) = Raise e →
          fst (set_download_path path s)
          = PathError (py "Invalid path: " ++ str_of_exn e))
  ∧ (fst (makedirs path (fst (sys_state s))) = Ok tt →
     fst (set_download_path path s) = PathSuccess path)
  ∧ (∀ playlist_id st folder st',
       prepare_folder (sys_api (snd (set_download_path path s))) playlist_id st
       = (Ok folder, st') →
       ∃ name, folder = path_join path (sanitize_filename name)).
Proof.
  assert (Hrun : ∀ playlist_id st folder st',
    prepare_folder (sys_api (snd (set_download_path path s))) playlist_id st
    = (Ok folder, st') →
    ∃ name, folder = path_join path (sanitize_filename name)).
  { intros pid st folder st' H.
    destruct (prepare_folder_under _ _ _ _ _ H) as (name & ->).
    exists name. unfold set_download_path.
    by destruct (call _ _ _) as [[[]|?] ?]. }
  revert Hrun. unfold set_download_path, get_download_path. rewrite call_eq.
  destruct (makedirs path (fst (sys_state s))) as [[[]|e] w'] eqn:Hmk;
    cbn [fst snd sys_api sys_threads sys_state set_path is_downloading
         download_progress download_path];
    intros Hrun; split_and!; try done; by intros ? [= ->].
Qed.

(** ** Playlist information *)

Lemma re_search_nonempty (lit s : str) : re_search lit s ≠ Some [].
Proof.
  intros H. apply re_search_Some in H as (n & (rest & _ & Hne & _) & _). done.
Qed.

Lemma extract_playlist_id_nonempty (url : str) :
  extract_playlist_id url ≠ Some [].
Proof.
  unfold extract_playlist_id, patterns. cbn [search_patterns].
  destruct (re_search (py "playlist/") url) as [g|] eqn:H1.
  - intros [= ->]. by apply re_search_nonempty in H1.
  - destruct (re_search (py "playlist:") url) as [g|] eqn:H2; [|done].
    intros [= ->]. by apply re_search_nonempty in H2.
Qed.

Lemma get_playlist_info_some (c : client) (url pid : str) st :
  extract_playlist_id url = Some pid →
  get_playlist_info (Some c) url st
  = match c pid (fst st) with
    | (Ok p, w') =>
        (Ok (InfoSuccess (playlist_name p) (playlist_description p)
               (playlist_total p) (playlist_owner p)
               (head (playlist_images p))),
         (w', snd st ++ [EvPlaylist pid]))
    | (Raise e, w') =>
        (Ok (InfoError (str_of_exn e)), (w', snd st ++ [EvPlaylist pid]))
    end.
Proof.
  intros Hx. unfold get_playlist_info, try_except. rewrite Hx.
  assert (no_id (Some pid) = false) as ->.
  { destruct pid; [|done].
    by destruct (extract_playlist_id_nonempty url). }
  change (default [] (Some pid)) with pid.
  unfold bind. rewrite call_eq.
  by destruct (c pid (fst st)) as [[p|e] w'].
Qed.

(** X7: [get_playlist_info] never raises.  Without a session, or with a
    URL that holds no identifier, it answers with the error and makes no
    outside call; otherwise it makes the one catalog call for the extracted
    identifier, answers with the exception's text when that raises, and
    with the first image, or none when there is no image, when it
    succeeds. *)
Theorem get_playlist_info_cases (sp : option client) (url : str) st :
  (∃ r st', get_playlist_info sp url st = (Ok r, st'))
  ∧ (sp = None →
     get_playlist_info sp url st
     = (Ok (InfoError (py "Not authenticated with Spotify")), st))
  ∧ (is_Some sp → extract_playlist_id url = None →
     get_playlist_info sp url st
     = (Ok (InfoError (py "Invalid Spotify playlist URL")), st))
  ∧ (∀ c pid, sp = Some c → extract_playlist_id url = Some pid →
     snd (snd (get_playlist_info sp url st)) = snd st ++ [EvPlaylist pid]
     ∧ (∀ e, fst (c pid (fst st)) = Raise e →
             fst (get_playlist_info sp url st) = Ok (InfoError (str_of_exn e)))
     ∧ (∀ p, fst (c pid (fst st)) = Ok p →
             fst (get_playlist_info sp url st)
             = Ok (InfoSuccess (playlist_name p) (playlist_description p)
                     (playlist_total p) (playlist_owner p)
                     (head (playlist_images p))))).
Proof.
  destruct sp as [c|].
  2: { split_and!; [by eexists _, _|done|by intros [? ?]|done]. }
  destruct (extract_playlist_id url) as [pid|] eqn:Hx.
  2: { unfold get_playlist_info, try_except. rewrite Hx. cbn [no_id]. unfold ret.
       split_and!; [by eexists _, _|done|done|done]. }
  rewrite (get_playlist_info_some c url pid st Hx).
  destruct (c pid (fst st)) as [[p|e] w'] eqn:Hc.
  - split_and!; [by eexists _, _|done|done|].
    intros c' pid' Hc' Hi. simplify_eq. rewrite Hc. cbn [fst snd].
    split_and!; [done|done|]. by intros ? [= ->].
  - split_and!; [by eexists _, _|done|done|].
    intros c' pid' Hc' Hi. simplify_eq. rewrite Hc. cbn [fst snd].
    split_and!; [done| |done]. by intros ? [= ->].
Qed.

End MoreCallsFacts.

(** ** More on runs *)

Section MoreRuns.
Context {E : External}.

(** A field that is there stays, whatever key a step writes. *)
Ltac kept_field H :=
  let x := fresh in let Hx := fresh in
  destruct H as (x & Hx);
  first [ eexists; by simplify_map_eq
        | destruct Hx; eexists; split; [by simplify_map_eq | first [lia | eassumption]] ].

(** Every key of the record after a step was written by it, with a value
    of its kind, or was there before. *)
Ltac kept_typed H :=
  let k := fresh "k" in let v := fresh "v" in let Hk := fresh in
  cbn [download_progress]; intros k v Hk;
  repeat (apply lookup_insert_Some in Hk as [[<- <-]|[_ Hk]];
          [unfold well_typed;
           first [ left; split; [by_compute | eexists; split; [done|lia]]
                 | right; split; [by_compute | by eexists] ] |]);
  first [ by apply H
        | apply lookup_singleton_Some in Hk as [<- <-];
          unfold well_typed; right; split; [by_compute | by eexists] ].

Lemma worker_step_well_kept wk a st wk' a' st' :
  worker_step wk a st = (wk', a', st') →
  well_kept (download_progress a) → well_kept (download_progress a').
Proof.
  unfold well_kept.
  destruct wk; cbn [worker_step]; intros H (Hc & Ht & Hs & Hall);
    repeat case_match; simplify_eq;
    unfold on_exception, progress_put, set_progress, set_is_downloading;
    cbn [download_progress];
    (split_and!; [kept_field Hc|kept_field Ht|kept_field Hs|kept_typed Hall]).
Qed.

(** X10: whatever is scheduled, the progress record holds [current] and
    [total] as integers that are not negative and [status] as a string;
    it never holds a key other than these three, [current_track],
    [error] and [successful], and under each only a value of its kind:
    a string for the first two, an integer that is not negative for the
    last. *)
Theorem progress_well_kept (home : str) (w : world) (sched : list action) :
  well_kept (get_download_progress (exec_all sched (init_system home w))).
Proof.
  assert (H0 : well_kept (get_download_progress (init_system home w))).
  { unfold well_kept, get_download_progress. cbn.
    split_and!; [by exists 0%Z|by exists 0%Z|by eexists|].
    kept_typed I. }
  revert H0. generalize (init_system home w).
  induction sched as [|act sched IH]; intros s Hs; [done|].
  cbn [exec_all]. apply IH. unfold get_download_progress in *.
  destruct act as [url| |t]; cbn [exec].
  - unfold start_download. by case_match.
  - done.
  - destruct (sys_threads s !! t) as [wk|] eqn:Ht;
      [|by rewrite run_thread_none].
    destruct (worker_step wk (sys_api s) (sys_state s)) as [[wk' a'] st'] eqn:Hstep.
    rewrite (run_thread_some _ _ _ _ _ _ Ht Hstep). cbn [sys_api].
    by eapply worker_step_well_kept.
Qed.

(** *** A URL without identifier *)

Lemma no_id_None (url : str) :
  no_id (extract_playlist_id url) = true → extract_playlist_id url = None.
Proof.
  pose proof (extract_playlist_id_nonempty url) as Hne.
  destruct (extract_playlist_id url) as [[|c g]|]; done.
Qed.

Lemma lookup_started (s : system) (url : str) :
  is_downloading (sys_api s) = false →
  sys_threads (exec (Start url) s) !! length (sys_threads s) = Some (WStart url)
  ∧ sys_api (exec (Start url) s) = sys_api s
  ∧ sys_state (exec (Start url) s) = sys_state s.
Proof.
  intros Hflag. cbn [exec]. unfold start_download. rewrite Hflag.
  cbn [negb snd sys_threads sys_api sys_state]. split_and!; [|done|done].
  rewrite lookup_app_r by lia. by rewrite Nat.sub_diag.
Qed.


(** *** The flag when a run has ended *)

Lemma worker_step_flag_account url wk a st wk' a' st' :
  worker_step wk a st = (wk', a', st') →
  flag_account url wk a → flag_account url wk' a'.
Proof.
  destruct wk; cbn [worker_step flag_account]; intros H Hacc;
    repeat case_match; simplify_eq; cbn [flag_account]; try done;
    try (by left).
  - right. split_and!.
    + by apply no_id_None.
    + unfold named, progress_put, set_progress. cbn. by simplify_map_eq.
    + unfold progress_put, set_progress. cbn. by simplify_map_eq.
  - left. unfold progress_put, set_progress. cbn [is_downloading].
    by destruct (is_downloading a).
Qed.

Lemma solo_flag_account url t sched s :
  solo t sched →
  (∀ wk, sys_threads s !! t = Some wk → flag_account url wk (sys_api s)) →
  ∀ wk, sys_threads (exec_all sched s) !! t = Some wk →
        flag_account url wk (sys_api (exec_all sched s)).
Proof.
  revert s. induction sched as [|act sched IH]; intros s Hsolo Hacc; [done|].
  apply solo_cons in Hsolo as [[->| ->] Hsolo]; cbn [exec_all exec];
    apply IH; try done.
  - intros wk Hwk. specialize (Hacc wk Hwk).
    destruct wk; cbn [flag_account] in *; try done. by left.
  - intros wk' Hwk'.
    destruct (sys_threads s !! t) as [wk|] eqn:Ht;
      [|rewrite run_thread_none in * by done; simplify_eq].
    destruct (worker_step wk (sys_api s) (sys_state s)) as [[wk1 a'] st'] eqn:Hstep.
    rewrite (lookup_after_run _ _ _ _ _ _ Ht Hstep) in Hwk'. simplify_eq.
    rewrite (run_thread_some _ _ _ _ _ _ Ht Hstep). cbn [sys_api].
    eapply worker_step_flag_account; [done|]. by apply Hacc.
Qed.

(** X9: when a run observed in isolation has ended and [is_downloading]
    is still set, the run was started on a URL without playlist
    identifier and ended on [Invalid playlist URL]: every other way a run
    ends clears the flag or finds it clear. *)
Theorem flag_left_set (s : system) (url : str) (sched : list action) :
  let t := length (sys_threads s) in
  let s' := exec_all (Start url :: sched) s in
  is_downloading (sys_api s) = false →
  solo t sched →
  sys_threads s' !! t = Some WDone →
  is_downloading (sys_api s') = true →
  extract_playlist_id url = None
  ∧ named (status s') "error"
  ∧ field "error" s' = Some (VStr (py "Invalid playlist URL")).
Proof.
  intros t s' Hflag Hsolo Hdone Hset.
  destruct (lookup_started s url Hflag) as (Ht0 & _).
  assert (Hacc : flag_account url WDone (sys_api s')).
  { apply (solo_flag_account url t sched (exec (Start url) s)); [done| |done].
    intros wk Hwk. fold t in Ht0. rewrite Ht0 in Hwk. by simplify_eq. }
  destruct Hacc as [Hclear|Hbad]; [congruence|done].
Qed.

(** *** The loop over the tracks, left alone *)

Lemma run_thread_check_fields t s folder i track_info rest succ :
  sys_threads s !! t = Some (WLoop folder i (track_info :: rest) succ) →
  is_downloading (sys_api s) = true →
  field "current" (run_thread t s) = Some (VInt (Z.of_nat (i + 1)))
  ∧ (¬ labelled track_info →
     is_downloading (sys_api (run_thread t s)) = false
     ∧ sys_state (run_thread t s) = sys_state s).
Proof.
  intros Ht Hflag.
  destruct (worker_step (WLoop folder i (track_info :: rest) succ)
              (sys_api s) (sys_state s)) as [[wk' a'] st'] eqn:Hstep.
  rewrite (run_thread_some _ _ _ _ _ _ Ht Hstep).
  cbn [sys_api sys_state]. cbn [worker_step] in Hstep. rewrite Hflag in Hstep.
  cbn [negb] in Hstep. unfold current_track_label, first_artist_name in Hstep.
  destruct (item_track track_info) as [t0|] eqn:Hit;
    [destruct (track_artists t0) as [|a others] eqn:Hart|];
    unfold bind, raise, ret in Hstep; cbv beta iota in Hstep; simplify_eq;
    (split;
     [unfold field, on_exception, progress_put, set_progress, set_is_downloading;
      cbn [sys_api download_progress]; by simplify_map_eq|]);
    try done.
  intros Hnl. destruct Hnl. by exists t0, a, others.
Qed.

Lemma run_thread_completed_fields t s folder i succ :
  sys_threads s !! t = Some (WLoop folder i [] succ) →
  field "current" (run_thread t s) = field "current" s
  ∧ is_downloading (sys_api (run_thread t s)) = false.
Proof.
  intros Ht.
  destruct (worker_step (WLoop folder i [] succ) (sys_api s) (sys_state s))
    as [[wk' a'] st'] eqn:Hstep.
  rewrite (run_thread_some _ _ _ _ _ _ Ht Hstep).
  cbn [worker_step] in Hstep. simplify_eq. split; [|done].
  unfold field, progress_put, set_progress, set_is_downloading.
  cbn [sys_api download_progress]. by simplify_map_eq.
Qed.

Lemma loop_outcome_from t folder rest :
  ∀ i succ s,
    sys_threads s !! t = Some (WLoop folder i rest succ) →
    is_downloading (sys_api s) = true →
    field "current" s = Some (VInt (Z.of_nat i)) →
    sys_threads (after (2 * length rest + 1) t s) !! t = Some WDone
    ∧ is_downloading (sys_api (after (2 * length rest + 1) t s)) = false
    ∧ ((Forall labelled rest
        ∧ named (status (after (2 * length rest + 1) t s)) "completed"
        ∧ field "current" (after (2 * length rest + 1) t s)
          = Some (VInt (Z.of_nat (i + length rest)))
        ∧ ∃ c, field "successful" (after (2 * length rest + 1) t s)
               = Some (VInt (Z.of_nat c))
               ∧ (succ ≤ c ≤ succ + length rest)%nat)
       ∨ (∃ j track_info,
            rest !! j = Some track_info ∧ ¬ labelled track_info
            ∧ Forall labelled (take j rest)
            ∧ named (status (after (2 * length rest + 1) t s)) "error"
            ∧ field "current" (after (2 * length rest + 1) t s)
              = Some (VInt (Z.of_nat (i + j + 1)))
            ∧ sys_state (after (2 * length rest + 1) t s)
              = sys_state (after (2 * j) t s))).
Proof.
  induction rest as [|track_info rest IH]; intros i succ s Ht Hflag Hcur.
  - change (2 * length (@nil item) + 1)%nat with 1%nat.
    unfold after. cbn [replicate exec_all exec].
    destruct (run_thread_completed _ _ _ _ _ Ht) as (Hd & Hn & Hs & _).
    destruct (run_thread_completed_fields _ _ _ _ _ Ht) as (Hc & Hf).
    split_and!; [done|done|]. left. split_and!; [constructor|done| |].
    + rewrite Hc, Hcur. do 3 f_equal. cbn. lia.
    + exists succ. split; [done|cbn; lia].
  - replace (2 * length (track_info :: rest) + 1)%nat
      with (S (S (2 * length rest + 1))) by (cbn [length]; lia).
    rewrite !after_S.
    destruct (run_thread_check_fields _ _ _ _ _ _ _ Ht Hflag) as (Hcur1 & Hbad).
    destruct (run_thread_check _ _ _ _ _ _ _ Ht Hflag)
      as [(Hlab & Ht1 & Hf1 & Hst1)|(Hnlab & Ht1 & Herr)].
    + destruct (run_thread_body _ _ _ _ _ _ _ Ht1)
        as (b & st' & _ & _ & Ht2 & Hapi & _).
      set (s2 := run_thread t (run_thread t s)) in *.
      assert (Hf2 : is_downloading (sys_api s2) = true) by by rewrite Hapi.
      assert (Hcur2 : field "current" s2 = Some (VInt (Z.of_nat (i + 1)))).
      { unfold field in *. by rewrite Hapi. }
      destruct (IH _ _ s2 Ht2 Hf2 Hcur2)
        as (Hd & Hf & [(Hall & Hn & Hc & c & Hs & Hle)
                      |(j & ti & Hj & Hnl & Hall & Hn & Hc & Hst)]).
      * split_and!; [done|done|]. left. split_and!; [by constructor|done| |].
        -- rewrite Hc. do 3 f_equal. cbn [length]. lia.
        -- exists c. split; [done|]. cbn [length]. destruct b; lia.
      * split_and!; [done|done|]. right. exists (S j), ti.
        split_and!; [done|done|by constructor|done| |].
        -- rewrite Hc. do 3 f_equal. lia.
        -- rewrite Hst. replace (2 * S j)%nat with (S (S (2 * j))) by lia.
           by rewrite !after_S.
    + destruct (Hbad Hnlab) as (Hf1 & Hst1).
      change (run_thread t (run_thread t s))
        with (after 1 t (run_thread t s)).
      rewrite (after_done 1), after_done by done.
      split_and!; [done|done|]. right. exists 0%nat, track_info.
      split_and!; [done|done|constructor|done| |done].
      rewrite Hcur1. do 3 f_equal. lia.
Qed.

(** X11: the loop over [n] tracks, entered with the flag set and left
    alone, has ended after [2n+1] steps, with the flag clear.  Either the
    label of every track could be built, and the run is [completed] with
    current index [n] and a success count of at most [n]; or the run is in
    [error] at the first track whose label could not be built (no track
    object, or no artist), the current index is that track's position,
    and nothing was done for this or any later track. *)
Theorem loop_outcome (t : nat) (folder : str) (tracks : list item) (s : system) :
  sys_threads s !! t = Some (WLoop folder 0 tracks 0) →
  is_downloading (sys_api s) = true →
  field "current" s = Some (VInt 0) →
  sys_threads (after (2 * length tracks + 1) t s) !! t = Some WDone
  ∧ is_downloading (sys_api (after (2 * length tracks + 1) t s)) = false
  ∧ ((Forall labelled tracks
      ∧ named (status (after (2 * length tracks + 1) t s)) "completed"
      ∧ field "current" (after (2 * length tracks + 1) t s)
        = Some (VInt (Z.of_nat (length tracks)))
      ∧ ∃ c, field "successful" (after (2 * length tracks + 1) t s)
             = Some (VInt (Z.of_nat c))
             ∧ (c ≤ length tracks)%nat)
     ∨ (∃ j track_info,
          tracks !! j = Some track_info ∧ ¬ labelled track_info
          ∧ Forall labelled (take j tracks)
          ∧ named (status (after (2 * length tracks + 1) t s)) "error"
          ∧ field "current" (after (2 * length tracks + 1) t s)
            = Some (VInt (Z.of_nat (j + 1)))
          ∧ sys_state (after (2 * length tracks + 1) t s)
            = sys_state (after (2 * j) t s))).
Proof.
  intros Ht Hflag Hcur.
  destruct (loop_outcome_from t folder tracks 0 0 s Ht Hflag Hcur)
    as (Hd & Hf & [(Hall & Hn & Hc & c & Hs & Hle)
                  |(j & ti & Hj & Hnl & Hall & Hn & Hc & Hst)]).
  - split_and!; [done|done|]. left. split_and!; [done|done|done|].
    exists c. split; [done|lia].
  - split_and!; [done|done|]. right. exists j, ti. by split_and!.
Qed.

(** X12: in a run observed in isolation, whenever the worker is in the
    loop over the tracks, the current index of the progress record lies
    between 0 and the total, and the total is the number of tracks begun
    plus the number still ahead. *)
Theorem current_within_total
    (s : system) (url : str) (sched : list action) (wk : worker) :
  let t := length (sys_threads s) in
  let s' := exec_all (Start url :: sched) s in
  solo t sched →
  sys_threads s' !! t = Some wk → stage wk = 2%nat →
  ∃ c n : Z,
    field "current" s' = Some (VInt c) ∧ field "total" s' = Some (VInt n)
    ∧ (0 ≤ c ≤ n)%Z
    ∧ c = Z.of_nat (begun wk)
    ∧ n = Z.of_nat (begun wk + remaining wk).
Proof.
  intros t s' Hsolo Hwk Hstage.
  assert (Hcount : counted wk (sys_api s')).
  { apply (solo_counted t sched (exec (Start url) s)); [done| |done].
    intros wk0 Hwk0. cbn [exec] in Hwk0. unfold start_download in Hwk0.
    case_match; cbn [snd sys_threads] in Hwk0.
    - rewrite lookup_app_r in Hwk0 by (subst t; lia).
      subst t. rewrite Nat.sub_diag in Hwk0. simpl in Hwk0. simplify_eq.
      split; cbn [stage]; lia.
    - apply lookup_lt_Some in Hwk0. subst t. lia. }
  destruct Hcount as [Hc Hn].
  eexists _, _. split_and!; [by apply Hc; right|by apply Hn| | |done|done]; lia.
Qed.

End MoreRuns.

(** ** The further properties at concrete runs *)


Lemma flag_left_set_witness :
  is_downloading (sys_api mix_init) = false
  ∧ solo 0 [Run 0%nat; Run 0%nat]
  ∧ sys_threads bad_url_run !! 0%nat = Some WDone
  ∧ is_downloading (sys_api bad_url_run) = true
  ∧ field "error" bad_url_run = Some (VStr (py "Invalid playlist URL")).
Proof.
  assert (H1 : is_downloading (sys_api mix_init) = false) by reflexivity.
  assert (H2 : solo 0 [Run 0%nat; Run 0%nat]).
  { repeat (constructor; [by right|]). constructor. }
  assert (H3 : sys_threads bad_url_run !! 0%nat = Some WDone)
    by (vm_compute; reflexivity).
  assert (H4 : is_downloading (sys_api bad_url_run) = true)
    by (vm_compute; reflexivity).
  pose proof (flag_left_set (E := sim sc_mix) mix_init (py "not a url")
                [Run 0%nat; Run 0%nat] H1 H2 H3 H4) as (_ & _ & Hmsg).
  split; [exact H1|]. split; [exact H2|]. split; [exact H3|].
  split; [exact H4|exact Hmsg].
Defined.

(** The loop of the first run over [sc_twins]. *)
Lemma loop_outcome_witness :
  sys_threads twins_loop_first !! 0%nat
  = Some (WLoop (py "/music/Twins") 0 (sc_tracks sc_twins) 0)
  ∧ is_downloading (sys_api twins_loop_first) = true
  ∧ field "current" twins_loop_first = Some (VInt 0)
  ∧ sys_threads (after 5 0 twins_loop_first) !! 0%nat = Some WDone
  ∧ is_downloading (sys_api (after 5 0 twins_loop_first)) = false.
Proof.
  assert (H1 : sys_threads twins_loop_first !! 0%nat
    = Some (WLoop (py "/music/Twins") 0 (sc_tracks sc_twins) 0))
    by (vm_compute; reflexivity).
  assert (H2 : is_downloading (sys_api twins_loop_first) = true)
    by (vm_compute; reflexivity).
  assert (H3 : field "current" twins_loop_first = Some (VInt 0))
    by (vm_compute; reflexivity).
  pose proof (loop_outcome (E := sim sc_twins) 0 (py "/music/Twins")
                (sc_tracks sc_twins) twins_loop_first H1 H2 H3)
    as (Hd & Hf & _).
  split; [exact H1|]. split; [exact H2|]. split; [exact H3|].
  split; [exact Hd|exact Hf].
Defined.

(** The loop over [sc_mix] ends in [error] at the slot that is gone, the
    second, and nothing is done for the third track. *)
Example loop_outcome_gone :
  named (status (after 7 0 (after 3 0 (exec (Start good_url) mix_init)))) "error"
  ∧ field "current" (after 7 0 (after 3 0 (exec (Start good_url) mix_init)))
    = Some (VInt 2)
  ∧ sys_state (after 7 0 (after 3 0 (exec (Start good_url) mix_init)))
    = sys_state (after 2 0 (after 3 0 (exec (Start good_url) mix_init))).
Proof. split_and!; vm_compute; reflexivity. Qed.

(** The run over [sc_mix] while its first track is in flight. *)
Lemma current_within_total_witness :
  solo 0 (replicate 4 (Run 0%nat))
  ∧ sys_threads (exec_all (Start good_url :: replicate 4 (Run 0%nat)) mix_init)
      !! 0%nat
    = Some (WBody (py "/music/Mix") 0 (song "A" "B") [gone; song "C" "D"] 0)
  ∧ ∃ c n : Z,
      field "current"
        (exec_all (Start good_url :: replicate 4 (Run 0%nat)) mix_init)
      = Some (VInt c)
      ∧ field "total"
          (exec_all (Start good_url :: replicate 4 (Run 0%nat)) mix_init)
        = Some (VInt n)
      ∧ (0 ≤ c ≤ n)%Z.
Proof.
  assert (H1 : solo 0 (replicate 4 (Run 0%nat))).
  { repeat (constructor; [by right|]). constructor. }
  assert (H2 : sys_threads
      (exec_all (Start good_url :: replicate 4 (Run 0%nat)) mix_init) !! 0%nat
    = Some (WBody (py "/music/Mix") 0 (song "A" "B") [gone; song "C" "D"] 0))
    by (vm_compute; reflexivity).
  destruct (current_within_total (E := sim sc_mix) mix_init good_url
              (replicate 4 (Run 0%nat)) _ H1 H2 eq_refl)
    as (c & n & Hc & Hn & Hle & _).
  split; [exact H1|]. split; [exact H2|]. exists c, n.
  split; [exact Hc|]. split; [exact Hn|exact Hle].
Defined.

(** [get_playlist_info] with a client that knows the playlist of [sc_mix]:
    three tracks, no image, and the one catalog call in the log. *)
Example get_playlist_info_ex (w : world (External := sim sc_mix)) :
  get_playlist_info (E := sim sc_mix) (Some (one_playlist sc_mix)) good_url (w, [])
  = (Ok (InfoSuccess (sc_name sc_mix) [] 3 (py "owner") None),
     (w, [EvPlaylist (default [] (extract_playlist_id good_url))])).
Proof. vm_compute. reflexivity. Qed.

(** ** Calls of [start_download] during and between runs *)

Section StartCalls.
Context {E : External}.








End StartCalls.


(** ** Downloads that fail without raising *)

(** With the error raised, the library behaves as in [sim]. *)
Lemma sim_ydl_raising (sc : scenario) : sim_ydl false sc = sim sc.
Proof. reflexivity. Qed.

(** C6, at a track for which the search lists four videos, none of which
    can be downloaded, and an empty folder: with ['ignoreerrors': True]
    the call for the first candidate returns, [download_track] takes that
    for a download and answers [true] after this one attempt, with no
    file written and the second and third candidate never tried.  Were
    the error raised, the same loop tries the first three candidates in
    the order of the page and answers [false].  Likewise over [sc_mix],
    where the second candidate can be downloaded: [true] after the first,
    which failed, and no file; with the error raised, [true] after the
    second, and the file is there. *)
Theorem failed_download_counts_as_success :
  download_track (E := sim_ydl ignoreerrors sc_dead)
    (song "A" "B") (py "/music/Dead") ([], [])
  = (Ok true,
     ([],
      [EvSearch (py "https://www.youtube.com/results?search_query=B A official");
       EvDownload (py "/music/Dead/A - B.%(ext)s")
                  (py "https://www.youtube.com/watch?v=aaaaaaaaaaa")]))
  ∧ download_track (E := sim_ydl false sc_dead)
      (song "A" "B") (py "/music/Dead") ([], [])
    = (Ok false,
       ([],
        [EvSearch (py "https://www.youtube.com/results?search_query=B A official");
         EvDownload (py "/music/Dead/A - B.%(ext)s")
                    (py "https://www.youtube.com/watch?v=aaaaaaaaaaa");
         EvDownload (py "/music/Dead/A - B.%(ext)s")
                    (py "https://www.youtube.com/watch?v=bbbbbbbbbbb");
         EvDownload (py "/music/Dead/A - B.%(ext)s")
                    (py "https://www.youtube.com/watch?v=ccccccccccc")]))
  ∧ download_track (E := sim_ydl ignoreerrors sc_mix)
      (song "A" "B") (py "/music/Mix") ([], [])
    = (Ok true,
       ([],
        [EvSearch (py "https://www.youtube.com/results?search_query=B A official");
         EvDownload (py "/music/Mix/A - B.%(ext)s")
                    (py "https://www.youtube.com/watch?v=aaaaaaaaaaa")]))
  ∧ download_track (E := sim_ydl false sc_mix)
      (song "A" "B") (py "/music/Mix") ([], [])
    = (Ok true,
       ([py "/music/Mix/A - B.mp3"],
        [EvSearch (py "https://www.youtube.com/results?search_query=B A official");
         EvDownload (py "/music/Mix/A - B.%(ext)s")
                    (py "https://www.youtube.com/watch?v=aaaaaaaaaaa");
         EvDownload (py "/music/Mix/A - B.%(ext)s")
                    (py "https://www.youtube.com/watch?v=bbbbbbbbbbb")])).
Proof. split_and!; vm_compute; reflexivity. Qed.
